(** * esp32c3-car: command-to-motor-drive translation and safety timeout

    A shallow embedding of the two firmware variants of the repository:

    - [Ble]: [ble_motor_control.cpp], the BLE variant driven by the legacy
      text protocol [M1:<int>,M2:<int>];
    - [Car]: [main-2025-10-21.cpp], the WiFi/WebSocket variant driven by
      single-character commands and JSON joystick records.

    Machine integers are modelled as [Z] with the wrap-around of the
    32-bit target written out.  The global variables of each sketch are the
    fields of a state record; every pin write, log line and broadcast frame is
    appended, in program order, to an effect trace kept in that record. *)

From Stdlib Require Import ZArith Lia List Ascii String.
From Stdlib Require Import DecimalString DecimalPos.
From stdpp Require Import gmap strings.

Local Open Scope Z_scope.

(** ** Arduino core helpers shared by both sketches *)

Module Arduino.

(** [int] on the ESP32-C3 is a 32-bit two's complement integer. *)
Definition INT_MIN : Z := -2147483648.
Definition INT_MAX : Z := 2147483647.

Definition in_int_range (z : Z) : bool := (INT_MIN <=? z) && (z <=? INT_MAX).

(** Result of an [int] operation whose mathematical value is [z]: the
    RISC-V [mul]/[sub] instructions keep the low 32 bits. *)
Definition wrap_int (z : Z) : Z := (z + 2147483648) mod 4294967296 - 2147483648.

Definition int_mul (a b : Z) : Z := wrap_int (a * b).

(** [/] on [int] truncates toward zero. *)
Definition int_div (a b : Z) : Z := wrap_int (a ÷ b).

(** [abs(x)] *)
Definition abs (x : Z) : Z := wrap_int (Z.abs x).

(** [#define constrain(amt,low,high)
      ((amt)<(low)?(low):((amt)>(high)?(high):(amt)))] *)
Definition constrain (amt low high : Z) : Z :=
  if amt <? low then low else if high <? amt then high else amt.

(** [unsigned long] is 32 bits wide; subtraction wraps modulo 2^32. *)
Definition ulong_sub (a b : Z) : Z := (a - b) mod 4294967296.

Definition LOW : bool := false.
Definition HIGH : bool := true.

(** A byte buffer read as a C string ([char*], [c_str()]): the bytes
    before the first NUL. *)
Fixpoint c_str (s : string) : string :=
  match s with
  | EmptyString => EmptyString
  | String c rest => if (c =? "000")%char then EmptyString else String c (c_str rest)
  end.

(** Statements are state transformers, sequenced left to right. *)
Definition seq {St : Type} (a b : St -> St) : St -> St := fun st => b (a st).
Definition skip {St : Type} : St -> St := fun st => st.

Notation "a >>> b" := (seq a b) (at level 62, right associativity).

End Arduino.

(** ** The BLE sketch, [ble_motor_control.cpp] *)

Module Ble.
Import Arduino.

(** Motor A (M1) and motor B (M2) pins; each pin number doubles as its
    LEDC channel number. *)
Definition M1_IN1_PIN : Z := 3.
Definition M1_IN2_PIN : Z := 2.
Definition M2_IN1_PIN : Z := 10.
Definition M2_IN2_PIN : Z := 7.

Inductive effect :=
| LedcWrite (pin duty : Z)
| SerialPrint (text : string)
| StartAdvertising.

Record state := mkState {
  ledc : gmap Z Z;
  deviceConnected : bool;
  trace : list effect
}.

(** Duty last written to a pin; a pin never written idles at 0. *)
Definition ledcRead (st : state) (pin : Z) : Z := default 0 (ledc st !! pin).

Definition action := state -> state.

Definition emit (e : effect) : action := fun st =>
  mkState (ledc st) (deviceConnected st) (trace st ++ [e]).

Definition set_deviceConnected (b : bool) : action := fun st =>
  mkState (ledc st) b (trace st).

(** [ledcWrite(pin, duty)] *)
Definition ledcWrite (pin duty : Z) : action := fun st =>
  mkState (<[pin := duty]> (ledc st)) (deviceConnected st)
          (trace st ++ [LedcWrite pin duty]).

Definition Serial_print (text : string) : action := emit (SerialPrint text).
Definition Serial_println (text : string) : action := emit (SerialPrint text).

(** *** The parts of [std::string] the sketch uses *)

(** [s.find(needle, pos)]; [None] is [std::string::npos]. *)
Definition find (s needle : string) (pos : nat) : option nat :=
  String.index pos needle s.

(** [s.substr(pos)] and [s.substr(pos, len)], for [pos <= s.length()]. *)
Definition substr (s : string) (pos : nat) (len : option nat) : string :=
  match len with
  | None => String.substring pos (String.length s - pos) s
  | Some n => String.substring pos n s
  end.

Definition isspace (c : ascii) : bool :=
  let n := nat_of_ascii c in
  ((n =? 32) || ((9 <=? n) && (n <=? 13)))%nat.

Definition digit_value (c : ascii) : option Z :=
  let n := Z.of_nat (nat_of_ascii c) in
  if (48 <=? n) && (n <=? 57) then Some (n - 48) else None.

Fixpoint skip_spaces (s : string) : string :=
  match s with
  | String c rest => if isspace c then skip_spaces rest else s
  | EmptyString => s
  end.

(** The value of the longest prefix of decimal digits, [acc] being the
    value read so far ([None]: no digit yet). *)
Fixpoint read_digits (s : string) (acc : option Z) : option Z :=
  match s with
  | String c rest =>
      match digit_value c with
      | Some d => read_digits rest (Some (10 * default 0 acc + d))
      | None => acc
      end
  | EmptyString => acc
  end.

(** [std::stoi(str)]: leading white space, an optional sign, then decimal
    digits; what follows the digits is ignored.  [None] stands for the two
    exceptions it throws: [std::invalid_argument] when there is no digit and
    [std::out_of_range] when the value does not fit an [int]. *)
Definition stoi (str : string) : option Z :=
  let s := skip_spaces str in
  let '(negative, s) :=
    match s with
    | String c rest =>
        if (c =? "-")%char then (true, rest)
        else if (c =? "+")%char then (false, rest)
        else (false, s)
    | EmptyString => (false, s)
    end in
  match read_digits s None with
  | None => None
  | Some n =>
      let v := if negative then - n else n in
      if in_int_range v then Some v else None
  end.

(** *** The sketch *)

Definition setMotorSpeed (in1_pin in2_pin speed : Z) : action :=
  let speed := constrain speed (-255) 255 in
  let absSpeed := abs speed in
  if 0 <? speed then
    ledcWrite in1_pin absSpeed >>> ledcWrite in2_pin 0
  else if speed <? 0 then
    ledcWrite in1_pin 0 >>> ledcWrite in2_pin absSpeed
  else
    ledcWrite in1_pin 0 >>> ledcWrite in2_pin 0.

(** The local [m1_str] of [onWrite]: the text between [M1:] and the next
    comma, or the end of the message. *)
Definition m1_str (rxValue : string) (m1_pos : nat) : string :=
  match find rxValue "," m1_pos with
  | None => substr rxValue (m1_pos + 3) None
  | Some end_pos => substr rxValue (m1_pos + 3) (Some (end_pos - (m1_pos + 3))%nat)
  end.

(** The local [m2_str] of [onWrite]: everything after [M2:]. *)
Definition m2_str (rxValue : string) (m2_pos : nat) : string :=
  substr rxValue (m2_pos + 3) None.

(** [MyCallbacks::onWrite], [rxValue] being the characteristic's value. *)
Definition onWrite (rxValue : string) : action := fun st =>
  if (0 <? String.length rxValue)%nat then
    let st := (Serial_print "Received Value: " >>>
               Serial_println (c_str rxValue)) st in
    let m1_speed := 0 in
    let m2_speed := 0 in
    let '(m1_speed, st) :=
      match find rxValue "M1:" 0 with
      | Some m1_pos =>
          match stoi (m1_str rxValue m1_pos) with
          | Some v => (v, st)
          | None => (m1_speed, Serial_println "Error parsing M1 speed." st)
          end
      | None => (m1_speed, st)
      end in
    let '(m2_speed, st) :=
      match find rxValue "M2:" 0 with
      | Some m2_pos =>
          match stoi (m2_str rxValue m2_pos) with
          | Some v => (v, st)
          | None => (m2_speed, Serial_println "Error parsing M2 speed." st)
          end
      | None => (m2_speed, st)
      end in
    (setMotorSpeed M1_IN1_PIN M1_IN2_PIN m1_speed >>>
     setMotorSpeed M2_IN1_PIN M2_IN2_PIN m2_speed) st
  else st.

(** [MyServerCallbacks::onConnect] *)
Definition onConnect : action :=
  set_deviceConnected true >>>
  Serial_println "BLE Client Connected." >>>
  setMotorSpeed M1_IN1_PIN M1_IN2_PIN 0 >>>
  setMotorSpeed M2_IN1_PIN M2_IN2_PIN 0.

(** [MyServerCallbacks::onDisconnect] *)
Definition onDisconnect : action :=
  set_deviceConnected false >>>
  Serial_println "BLE Client Disconnected." >>>
  setMotorSpeed M1_IN1_PIN M1_IN2_PIN 0 >>>
  emit StartAdvertising.

(** The state [setup] leaves behind: both motors stopped, advertising. *)
Definition setup : state :=
  (Serial_println "Starting BLE Motor Control (DRV8833)..." >>>
   setMotorSpeed M1_IN1_PIN M1_IN2_PIN 0 >>>
   setMotorSpeed M2_IN1_PIN M2_IN2_PIN 0 >>>
   emit StartAdvertising >>>
   Serial_println "BLE Advertising started. Device is discoverable.")
    (mkState ∅ false []).

(** [loop] only sleeps. *)
Definition loop : action := skip.

Inductive event :=
| Write (rxValue : string)
| Connect
| Disconnect
| Loop.

Definition step (ev : event) : action :=
  match ev with
  | Write rxValue => onWrite rxValue
  | Connect => onConnect
  | Disconnect => onDisconnect
  | Loop => loop
  end.

Inductive reachable : state -> Prop :=
| reachable_setup : reachable setup
| reachable_step ev st : reachable st -> reachable (step ev st).

Definition run (evs : list event) : action :=
  fun st => fold_left (fun s ev => step ev s) evs st.

End Ble.

(** ** The WiFi/WebSocket sketch, [main-2025-10-21.cpp] *)

Module Car.
Import Arduino.

(** LEDC channels for PWM. *)
Definition CH_A_FWD : Z := 0.
Definition CH_A_REV : Z := 1.
Definition CH_B_LEFT : Z := 2.
Definition CH_B_RIGHT : Z := 3.

Definition MAX_DUTY : Z := 255.
Definition COMMAND_TIMEOUT : Z := 300.

Inductive DriveMode := AUTO | MANUAL.

Definition DriveMode_eqb (a b : DriveMode) : bool :=
  match a, b with
  | AUTO, AUTO | MANUAL, MANUAL => true
  | _, _ => false
  end.

Definition mode_name (m : DriveMode) : string :=
  match m with AUTO => "AUTO" | MANUAL => "MANUAL" end.

(** What the sketch does to the outside world, in program order.
    [motor_stby] is the only pin written with [digitalWrite]. *)
Inductive effect :=
| DigitalWrite_stby (level : bool)
| LedcWrite (channel duty : Z)
| LogMessage (message : string)
| StatusFrame (motorA motorB throttle steer : Z) (mode : DriveMode).

(** The globals of the sketch, the levels last written to the pins, and
    the trace of effects. [lastLogMillis] is the static local of [loop]. *)
Record state := mkState {
  targetA : Z;
  targetB : Z;
  lastCommandTime : Z;
  currentMode : DriveMode;
  motor_stby : bool;
  ledc : gmap Z Z;
  lastLogMillis : Z;
  trace : list effect
}.

(** Duty last written to a channel; a channel never written idles at 0. *)
Definition ledcRead (st : state) (channel : Z) : Z := default 0 (ledc st !! channel).

Definition action := state -> state.

Definition emit (e : effect) : action := fun st =>
  mkState (targetA st) (targetB st) (lastCommandTime st) (currentMode st)
          (motor_stby st) (ledc st) (lastLogMillis st) (trace st ++ [e]).

(** [targetA = targetB = v] *)
Definition set_targets (v : Z) : action := fun st =>
  mkState v v (lastCommandTime st) (currentMode st)
          (motor_stby st) (ledc st) (lastLogMillis st) (trace st).

Definition set_targetA (v : Z) : action := fun st =>
  mkState v (targetB st) (lastCommandTime st) (currentMode st)
          (motor_stby st) (ledc st) (lastLogMillis st) (trace st).

Definition set_targetB (v : Z) : action := fun st =>
  mkState (targetA st) v (lastCommandTime st) (currentMode st)
          (motor_stby st) (ledc st) (lastLogMillis st) (trace st).

Definition set_lastCommandTime (t : Z) : action := fun st =>
  mkState (targetA st) (targetB st) t (currentMode st)
          (motor_stby st) (ledc st) (lastLogMillis st) (trace st).

Definition set_currentMode (m : DriveMode) : action := fun st =>
  mkState (targetA st) (targetB st) (lastCommandTime st) m
          (motor_stby st) (ledc st) (lastLogMillis st) (trace st).

Definition set_lastLogMillis (t : Z) : action := fun st =>
  mkState (targetA st) (targetB st) (lastCommandTime st) (currentMode st)
          (motor_stby st) (ledc st) t (trace st).

(** [digitalWrite(motor_stby, level)] *)
Definition digitalWrite_stby (level : bool) : action := fun st =>
  mkState (targetA st) (targetB st) (lastCommandTime st) (currentMode st)
          level (ledc st) (lastLogMillis st) (trace st ++ [DigitalWrite_stby level]).

(** [ledcWrite(channel, duty)] *)
Definition ledcWrite (channel duty : Z) : action := fun st =>
  mkState (targetA st) (targetB st) (lastCommandTime st) (currentMode st)
          (motor_stby st) (<[channel := duty]> (ledc st)) (lastLogMillis st)
          (trace st ++ [LedcWrite channel duty]).

(** [sendLogMessage]: one line to the serial port and to every WebSocket
    client. *)
Definition sendLogMessage (message : string) : action := emit (LogMessage message).

Definition emergencyStopNow : action :=
  set_targets 0 >>>
  digitalWrite_stby LOW >>>
  ledcWrite CH_A_FWD 0 >>> ledcWrite CH_A_REV 0 >>>
  ledcWrite CH_B_LEFT 0 >>> ledcWrite CH_B_RIGHT 0 >>>
  sendLogMessage "!!! EMERGENCY STOP Triggered !!!".

(** The event kinds [webSocketEvent] is called with; [WStype_OTHER] stands
    for the kinds handled by [default]. *)
Inductive WStype :=
| WStype_CONNECTED (ip : string)
| WStype_DISCONNECTED
| WStype_TEXT (payload : string)
| WStype_OTHER.

(** A decoded JSON document, seen through its integer members. *)
Abbreviation JsonDocument := (gmap string Z).

(** [doc[key] | dflt] at type [int]: the member when it is present and
    fits an [int], the default otherwise. *)
Definition member_or (doc : JsonDocument) (key : string) (dflt : Z) : Z :=
  match doc !! key with
  | Some v => if in_int_range v then v else dflt
  | None => dflt
  end.

(** The status record broadcast after every decoded joystick command. *)
Definition broadcastStatus (throttle steer : Z) : action := fun st =>
  emit (StatusFrame (targetA st) (targetB st) throttle steer (currentMode st)) st.

(** The motor-control block of the JSON branch (section VI of the
    sketch), run when [currentMode == MANUAL]. *)
Definition driveManual (steer throttle millis : Z) : action :=
  let scaledThrottle := int_div (int_mul throttle MAX_DUTY) 100 in
  let scaledSteer := int_div (int_mul steer MAX_DUTY) 100 in
  set_targetA (constrain scaledThrottle (- MAX_DUTY) MAX_DUTY) >>>
  set_targetB (constrain scaledSteer (- MAX_DUTY) MAX_DUTY) >>>
  digitalWrite_stby HIGH >>>
  (fun st =>
     let speedA := targetA st in
     if 0 <? speedA then (ledcWrite CH_A_FWD speedA >>> ledcWrite CH_A_REV 0) st
     else if speedA <? 0 then (ledcWrite CH_A_FWD 0 >>> ledcWrite CH_A_REV (abs speedA)) st
     else (ledcWrite CH_A_FWD 0 >>> ledcWrite CH_A_REV 0) st) >>>
  (fun st =>
     let speedB := targetB st in
     if 0 <? speedB then (ledcWrite CH_B_RIGHT speedB >>> ledcWrite CH_B_LEFT 0) st
     else if speedB <? 0 then (ledcWrite CH_B_RIGHT 0 >>> ledcWrite CH_B_LEFT (abs speedB)) st
     else (ledcWrite CH_B_RIGHT 0 >>> ledcWrite CH_B_LEFT 0) st) >>>
  set_lastCommandTime millis.

Section WithDecoder.

(** [deserializeJson] of the ArduinoJson library: the error text, or
    the decoded document. *)
Variable deserializeJson : string -> string + JsonDocument.

(** [webSocketEvent(num, type, payload, length)]; [millis] is the value
    [millis()] returns during the call. Both the [String] built from
    [payload] and [deserializeJson] take [payload] as a [char] pointer: they
    read the frame as a C string. *)
Definition webSocketEvent (type : WStype) (millis : Z) : action :=
  match type with
  | WStype_CONNECTED ip =>
      sendLogMessage ("--- WS Client Connected from " ++ ip ++ " ---")
  | WStype_DISCONNECTED =>
      sendLogMessage "--- WS Client Disconnected ---" >>>
      emergencyStopNow
  | WStype_TEXT payload =>
      let msg := c_str payload in
      if (String.length msg =? 1)%nat then
        let cmd := default "000"%char (String.get 0 msg) in
        (if (cmd =? "A")%char then
           set_currentMode AUTO >>> sendLogMessage "Mode Switched: AUTO"
         else if (cmd =? "M")%char then
           set_currentMode MANUAL >>> sendLogMessage "Mode Switched: MANUAL"
         else if (cmd =? "S")%char then
           emergencyStopNow
         else skip) >>>
        set_lastCommandTime millis
      else
        match deserializeJson (c_str payload) with
        | inr doc =>
            let steer := member_or doc "steer" 0 in
            let throttle := member_or doc "throttle" 0 in
            (fun st =>
               if DriveMode_eqb (currentMode st) MANUAL
               then driveManual steer throttle millis st
               else st) >>>
            broadcastStatus throttle steer
        | inl err =>
            sendLogMessage ("WS Error: JSON parse failed: " ++ err)
        end
  | WStype_OTHER => skip
  end.

(** The command-timeout block of [loop]. *)
Definition commandTimeout (millis : Z) : action := fun st =>
  if COMMAND_TIMEOUT <? ulong_sub millis (lastCommandTime st) then
    if negb (targetA st =? 0) || negb (targetB st =? 0) then
      (sendLogMessage "Motors stopped due to command timeout." >>>
       set_targets 0 >>>
       digitalWrite_stby LOW >>>
       ledcWrite CH_A_FWD 0 >>> ledcWrite CH_A_REV 0 >>>
       ledcWrite CH_B_LEFT 0 >>> ledcWrite CH_B_RIGHT 0) st
    else st
  else st.

(** The heartbeat block of [loop]. *)
Definition heartbeat (millis : Z) : action := fun st =>
  if 5000 <? ulong_sub millis (lastLogMillis st) then
    (sendLogMessage ("Heartbeat: Car system active, Mode=" ++ mode_name (currentMode st)) >>>
     set_lastLogMillis millis) st
  else st.

(** One iteration of [loop] at time [millis]. The events that
    [webSocket.loop()] dispatches are separate steps, see [step]. *)
Definition loop (millis : Z) : action :=
  commandTimeout millis >>> heartbeat millis.

(** The globals as initialised, after [setup] has driven the standby
    pin low. *)
Definition setup : state :=
  mkState 0 0 0 MANUAL LOW ∅ 0 [].

(** What can happen to the sketch once [setup] has returned. *)
Inductive event :=
| WebSocket (type : WStype) (millis : Z)
| Loop (millis : Z).

Definition step (ev : event) : action :=
  match ev with
  | WebSocket type millis => webSocketEvent type millis
  | Loop millis => loop millis
  end.

Inductive reachable : state -> Prop :=
| reachable_setup : reachable setup
| reachable_step ev st : reachable st -> reachable (step ev st).

Definition run (evs : list event) : action := fun st => fold_left (fun s ev => step ev s) evs st.

End WithDecoder.

End Car.

(** ** The web client served by the WebSocket sketch *)

(** The panel update of the script inside [index_html], which computes
    on the two joystick values. [state.steer] and [state.throttle] are the results of
    [Math.round] and are modelled as integers. *)
Module Web.

(** The texts [updateDominantDisplay] writes to [domNameEl]: the empty
    string and the labels that end in (STEER) twice, for right and left,
    (THROTTLE), (REVERSE) and (IDLE). *)
Inductive name_text :=
| name_empty | name_right_steer | name_left_steer
| name_forward | name_reverse | name_idle.

(** The colour classes [c-right], [c-left], [c-fwd], [c-rev], or none. *)
Inductive color_class := no_class | c_right | c_left | c_fwd | c_rev.

(** The panel [dominant-display]: its opacity (1 is shown), the text of
    [domName], the number in the text of [domValue] ([None] while the
    text is empty), and the colour class of [domValue]. *)
Record panel := mkPanel {
  shown : bool;
  domName : name_text;
  domValue : option Z;
  valueClass : color_class
}.

Definition updateDominantDisplay (steer throttle : Z) (p : panel) : panel :=
  let absSteer := Z.abs steer in
  let absThrottle := Z.abs throttle in
  let p := mkPanel (shown p) (domName p) (domValue p) no_class in
  if (absSteer =? 0) && (absThrottle =? 0) then
    mkPanel false (domName p) (domValue p) (valueClass p)
  else
    let name := name_empty in
    let value := 0 in
    let colorClass := no_class in
    let '(name, value, colorClass) :=
      if absThrottle <=? absSteer then
        let value := steer in
        if 0 <? value then (name_right_steer, value, c_right)
        else if value <? 0 then (name_left_steer, value, c_left)
        else if 0 <? absThrottle then
          let value := throttle in
          if 0 <? value then (name_forward, value, c_fwd)
          else (name_reverse, value, c_rev)
        else (name_idle, value, no_class)
      else (name, value, colorClass) in
    let '(name, value, colorClass) :=
      if absSteer <? absThrottle then
        let value := throttle in
        if 0 <? value then (name_forward, value, c_fwd)
        else (name_reverse, value, c_rev)
      else (name, value, colorClass) in
    mkPanel true name (Some (Z.abs value)) colorClass.

End Web.

(** ** Vocabulary of the statements *)

Import Arduino.

(** [clamp] as the specification uses it. *)
Definition clamp (x lo hi : Z) : Z := Z.max lo (Z.min x hi).

(** The channel-pair policy, as the specification words it. *)
Definition channel_policy (d fwd rev : Z) : Prop :=
  (0 < d -> fwd = d /\ rev = 0) /\
  (d < 0 -> fwd = 0 /\ rev = Z.abs d) /\
  (d = 0 -> fwd = 0 /\ rev = 0).

(** Duty written to the forward and to the reverse channel for a signed
    duty [d], read off the two [if] chains of [Car.driveManual]. *)
Definition fwd_duty (d : Z) : Z := if 0 <? d then d else 0.
Definition rev_duty (d : Z) : Z := if 0 <? d then 0 else if d <? 0 then abs d else 0.

(** What holds of every state the WebSocket sketch can reach. *)
Definition consistent (st : Car.state) : Prop :=
  (-255 <= Car.targetA st <= 255) /\
  (-255 <= Car.targetB st <= 255) /\
  channel_policy (Car.targetA st)
    (Car.ledcRead st Car.CH_A_FWD) (Car.ledcRead st Car.CH_A_REV) /\
  channel_policy (Car.targetB st)
    (Car.ledcRead st Car.CH_B_RIGHT) (Car.ledcRead st Car.CH_B_LEFT) /\
  (Car.motor_stby st = LOW -> Car.targetA st = 0 /\ Car.targetB st = 0).

(** The speeds [Ble.onWrite] hands to [Ble.setMotorSpeed]: the parsed
    value of a token that is present and parsable, 0 otherwise. *)
Definition m1_speed_of (rxValue : string) : Z :=
  match Ble.find rxValue "M1:" 0 with
  | Some m1_pos => default 0 (Ble.stoi (Ble.m1_str rxValue m1_pos))
  | None => 0
  end.

Definition m2_speed_of (rxValue : string) : Z :=
  match Ble.find rxValue "M2:" 0 with
  | Some m2_pos => default 0 (Ble.stoi (Ble.m2_str rxValue m2_pos))
  | None => 0
  end.

(** No channel pair of the BLE sketch has both pins driven. *)
Definition ble_exclusive (st : Ble.state) : Prop :=
  ~ (Ble.ledcRead st Ble.M1_IN1_PIN <> 0 /\ Ble.ledcRead st Ble.M1_IN2_PIN <> 0) /\
  ~ (Ble.ledcRead st Ble.M2_IN1_PIN <> 0 /\ Ble.ledcRead st Ble.M2_IN2_PIN <> 0).

(** The pin duties after the writes of a trace, taken in order: the
    pins at the instant that follows the last effect of the trace. *)
Definition ble_apply (l : gmap Z Z) (e : Ble.effect) : gmap Z Z :=
  match e with
  | Ble.LedcWrite pin duty => <[pin := duty]> l
  | _ => l
  end.

Definition ble_replay (tr : list Ble.effect) : gmap Z Z := fold_left ble_apply tr ∅.

Definition ble_synced (st : Ble.state) : Prop :=
  Ble.ledc st = ble_replay (Ble.trace st).

(** The motor-facing part of a state of the WebSocket sketch: the stored
    duties, the standby line and the four PWM channels. *)
Definition car_outputs (st : Car.state) : Z * Z * bool * (Z * Z * Z * Z) :=
  (Car.targetA st, Car.targetB st, Car.motor_stby st,
   (Car.ledcRead st Car.CH_A_FWD, Car.ledcRead st Car.CH_A_REV,
    Car.ledcRead st Car.CH_B_LEFT, Car.ledcRead st Car.CH_B_RIGHT)).

(** A text message that takes the JSON branch of [Car.webSocketEvent]:
    its C string is not one character long. *)
Definition is_long_text (ev : Car.event) : Prop :=
  match ev with
  | Car.WebSocket (Car.WStype_TEXT payload) _ => String.length (c_str payload) <> 1%nat
  | _ => False
  end.

(** Walk a trace with the level of the standby line, [None] as soon as a
    nonzero duty is written while the line is low. *)
Fixpoint standby_scan (stby : bool) (tr : list Car.effect) : option bool :=
  match tr with
  | [] => Some stby
  | Car.DigitalWrite_stby level :: tr' => standby_scan level tr'
  | Car.LedcWrite _ duty :: tr' =>
      if (duty =? 0) || stby then standby_scan stby tr' else None
  | _ :: tr' => standby_scan stby tr'
  end.

(** The trace of a state passes [standby_scan] and ends at the level the
    standby line has in the state. *)
Definition scan_ok (st : Car.state) : Prop :=
  standby_scan LOW (Car.trace st) = Some (Car.motor_stby st).

(** The character [c] does not occur in [s]. *)
Fixpoint lacks (c : ascii) (s : string) : bool :=
  match s with
  | EmptyString => true
  | String c' rest => negb (c' =? c)%char && lacks c rest
  end.

(** An integer in decimal notation, as a BLE client writes a speed. *)
Definition Z_to_string (z : Z) : string := NilZero.string_of_int (Z.to_int z).

(** The legacy message [M1:<a>,M2:<b>] and the same with the tokens
    swapped. *)
Definition legacy_message (a b : string) : string := "M1:" ++ a ++ ",M2:" ++ b.
Definition swapped_message (a b : string) : string := "M2:" ++ b ++ ",M1:" ++ a.

(** Every pin of the BLE sketch carries a duty the 8-bit PWM can hold. *)
Definition ble_bounded (st : Ble.state) : Prop :=
  0 <= Ble.ledcRead st Ble.M1_IN1_PIN <= 255 /\
  0 <= Ble.ledcRead st Ble.M1_IN2_PIN <= 255 /\
  0 <= Ble.ledcRead st Ble.M2_IN1_PIN <= 255 /\
  0 <= Ble.ledcRead st Ble.M2_IN2_PIN <= 255.

(** The duties of the four pins of the BLE sketch: motor A forward and
    reverse, motor B forward and reverse. *)
Definition ble_pins (st : Ble.state) : Z * Z * Z * Z :=
  (Ble.ledcRead st Ble.M1_IN1_PIN, Ble.ledcRead st Ble.M1_IN2_PIN,
   Ble.ledcRead st Ble.M2_IN1_PIN, Ble.ledcRead st Ble.M2_IN2_PIN).

(** Any event but a text message whose C string is one character long:
    connects, disconnects, other frame kinds, loop iterations and every other
    text message. *)
Definition not_short_text (ev : Car.event) : Prop :=
  match ev with
  | Car.WebSocket (Car.WStype_TEXT payload) _ => String.length (c_str payload) <> 1%nat
  | _ => True
  end.

(** The PWM channels after one more effect of the WebSocket sketch. *)
Definition car_apply (l : gmap Z Z) (e : Car.effect) : gmap Z Z :=
  match e with
  | Car.LedcWrite channel duty => <[channel := duty]> l
  | _ => l
  end.

(** The duty a channel map holds for a channel, 0 for a channel never
    written, as [ledcRead] returns it; and a pair with both channels
    driven. *)
Definition duty_of (l : gmap Z Z) (channel : Z) : Z := default 0 (l !! channel).

Definition both_driven (l : gmap Z Z) (fwd rev : Z) : Prop :=
  duty_of l fwd <> 0 /\ duty_of l rev <> 0.

(** Sample payloads, as the web client sends them, and a decoder that
    knows them. *)
Definition dquote : string := String (ascii_of_nat 34) EmptyString.

Definition axis_payload (steer throttle : string) : string :=
  "{" ++ dquote ++ "steer" ++ dquote ++ ":" ++ steer ++ ","
      ++ dquote ++ "throttle" ++ dquote ++ ":" ++ throttle ++ "}".

Definition sample_deserializeJson (payload : string) : string + gmap string Z :=
  if String.eqb payload (axis_payload "0" "0") then
    inr {[ "steer"%string := 0; "throttle"%string := 0 ]}
  else if String.eqb payload (axis_payload "50" "50") then
    inr {[ "steer"%string := 50; "throttle"%string := 50 ]}
  else if String.eqb payload (axis_payload "100" "0") then
    inr {[ "steer"%string := 100; "throttle"%string := 0 ]}
  else if String.eqb payload (axis_payload "0" "8421505") then
    inr {[ "steer"%string := 0; "throttle"%string := 8421505 ]}
  else inl "InvalidInput"%string.

(** ** Properties *)

(** *** Machine arithmetic *)

Lemma wrap_int_small z : INT_MIN <= z <= INT_MAX -> wrap_int z = z.
Proof.
  unfold wrap_int, INT_MIN, INT_MAX. intros Hz.
  rewrite Z.mod_small by lia. lia.
Qed.

Lemma constrain_bounds amt low high :
  low <= high -> low <= constrain amt low high <= high.
Proof.
  intros Hlh. unfold constrain.
  destruct (Z.ltb_spec amt low); [lia|].
  destruct (Z.ltb_spec high amt); lia.
Qed.

Lemma abs_small d : -255 <= d <= 255 -> abs d = Z.abs d.
Proof.
  intros Hd. unfold abs. apply wrap_int_small. unfold INT_MIN, INT_MAX. lia.
Qed.

(** [x * 255 / 100] in [int] arithmetic agrees with the mathematical value
    as long as the product fits 32 bits. *)
Lemma scale_no_overflow x :
  Z.abs x <= 8421504 -> int_div (int_mul x 255) 100 = x * 255 ÷ 100.
Proof.
  intros Hx. unfold int_div, int_mul.
  rewrite (wrap_int_small (x * 255)) by (unfold INT_MIN, INT_MAX; lia).
  apply wrap_int_small. unfold INT_MIN, INT_MAX.
  Z.to_euclidean_division_equations. lia.
Qed.

Lemma channel_policy_exclusive d fwd rev :
  channel_policy d fwd rev -> ~ (fwd <> 0 /\ rev <> 0).
Proof.
  intros (Hpos & Hneg & Hzero) [Hf Hr].
  destruct (Z.lt_trichotomy d 0) as [H|[H|H]].
  - destruct (Hneg H); contradiction.
  - destruct (Hzero H); contradiction.
  - destruct (Hpos H); contradiction.
Qed.

(** *** The WebSocket sketch: what each branch computes *)

(** Run the primitive statements on a state given as a record, by value,
    so that the state is never duplicated unevaluated; the channel map and
    the log strings stay folded. *)
Ltac car_step :=
  cbv beta iota zeta delta
    [seq skip Car.set_targets Car.set_targetA Car.set_targetB
     Car.set_lastCommandTime Car.set_currentMode Car.set_lastLogMillis
     Car.digitalWrite_stby Car.ledcWrite Car.broadcastStatus
     Car.sendLogMessage Car.emit
     Car.targetA Car.targetB Car.lastCommandTime Car.currentMode
     Car.motor_stby Car.ledc Car.lastLogMillis Car.trace].

Section CarFacts.
Import Car.
Variable deserializeJson : string -> string + JsonDocument.

Lemma driveManual_unfold steer throttle millis st :
  let dA := constrain (int_div (int_mul throttle MAX_DUTY) 100) (- MAX_DUTY) MAX_DUTY in
  let dB := constrain (int_div (int_mul steer MAX_DUTY) 100) (- MAX_DUTY) MAX_DUTY in
  driveManual steer throttle millis st =
  mkState dA dB millis (currentMode st) HIGH
    (<[CH_B_LEFT := rev_duty dB]> (<[CH_B_RIGHT := fwd_duty dB]>
      (<[CH_A_REV := rev_duty dA]> (<[CH_A_FWD := fwd_duty dA]> (ledc st)))))
    (lastLogMillis st)
    (trace st ++ [DigitalWrite_stby HIGH;
                  LedcWrite CH_A_FWD (fwd_duty dA); LedcWrite CH_A_REV (rev_duty dA);
                  LedcWrite CH_B_RIGHT (fwd_duty dB); LedcWrite CH_B_LEFT (rev_duty dB)]).
Proof.
  intros dA dB. destruct st as [a b t m e l h tr].
  unfold driveManual. fold dA dB.
  unfold fwd_duty, rev_duty. car_step.
  destruct (0 <? dA), (dA <? 0), (0 <? dB), (dB <? 0); car_step;
    rewrite <- !app_assoc; reflexivity.
Qed.

Lemma webSocketEvent_json payload doc millis st :
  String.length (c_str payload) <> 1%nat ->
  deserializeJson (c_str payload) = inr doc ->
  let steer := member_or doc "steer" 0 in
  let throttle := member_or doc "throttle" 0 in
  webSocketEvent deserializeJson (WStype_TEXT payload) millis st =
  broadcastStatus throttle steer
    (match currentMode st with
     | MANUAL => driveManual steer throttle millis st
     | AUTO => st
     end).
Proof.
  intros Hlen Hdoc steer throttle. unfold webSocketEvent.
  apply Nat.eqb_neq in Hlen. rewrite Hlen, Hdoc.
  fold steer throttle. unfold seq at 1.
  destruct (currentMode st); reflexivity.
Qed.

Lemma webSocketEvent_error payload err millis st :
  String.length (c_str payload) <> 1%nat ->
  deserializeJson (c_str payload) = inl err ->
  webSocketEvent deserializeJson (WStype_TEXT payload) millis st =
  sendLogMessage ("WS Error: JSON parse failed: " ++ err) st.
Proof.
  intros Hlen Herr. unfold webSocketEvent.
  apply Nat.eqb_neq in Hlen. rewrite Hlen, Herr. reflexivity.
Qed.

Lemma emergencyStopNow_unfold st :
  emergencyStopNow st =
  mkState 0 0 (lastCommandTime st) (currentMode st) LOW
    (<[CH_B_RIGHT := 0]> (<[CH_B_LEFT := 0]>
      (<[CH_A_REV := 0]> (<[CH_A_FWD := 0]> (ledc st)))))
    (lastLogMillis st)
    (trace st ++ [DigitalWrite_stby LOW;
                  LedcWrite CH_A_FWD 0; LedcWrite CH_A_REV 0;
                  LedcWrite CH_B_LEFT 0; LedcWrite CH_B_RIGHT 0;
                  LogMessage "!!! EMERGENCY STOP Triggered !!!"]).
Proof.
  destruct st as [a b t m e l h tr].
  unfold emergencyStopNow. car_step.
  rewrite <- !app_assoc. reflexivity.
Qed.

Lemma commandTimeout_fires millis st :
  COMMAND_TIMEOUT < ulong_sub millis (lastCommandTime st) ->
  targetA st <> 0 \/ targetB st <> 0 ->
  commandTimeout millis st =
  mkState 0 0 (lastCommandTime st) (currentMode st) LOW
    (<[CH_B_RIGHT := 0]> (<[CH_B_LEFT := 0]>
      (<[CH_A_REV := 0]> (<[CH_A_FWD := 0]> (ledc st)))))
    (lastLogMillis st)
    (trace st ++ [LogMessage "Motors stopped due to command timeout.";
                  DigitalWrite_stby LOW;
                  LedcWrite CH_A_FWD 0; LedcWrite CH_A_REV 0;
                  LedcWrite CH_B_LEFT 0; LedcWrite CH_B_RIGHT 0]).
Proof.
  destruct st as [a b t m e l h tr]. cbn [targetA targetB lastCommandTime].
  intros Hlate Hrun. unfold commandTimeout. car_step.
  apply Z.ltb_lt in Hlate. rewrite Hlate.
  assert (negb (a =? 0) || negb (b =? 0) = true) as ->.
  { apply orb_true_iff. destruct Hrun as [H|H]; [left|right];
      apply negb_true_iff, Z.eqb_neq, H. }
  car_step. rewrite <- !app_assoc. reflexivity.
Qed.

Lemma commandTimeout_idle millis st :
  targetA st = 0 -> targetB st = 0 -> commandTimeout millis st = st.
Proof.
  intros HA HB. unfold commandTimeout. rewrite HA, HB.
  change (negb (0 =? 0) || negb (0 =? 0)) with false.
  destruct (COMMAND_TIMEOUT <? _); reflexivity.
Qed.

Lemma commandTimeout_cases millis st :
  commandTimeout millis st = st \/
  commandTimeout millis st =
  mkState 0 0 (lastCommandTime st) (currentMode st) LOW
    (<[CH_B_RIGHT := 0]> (<[CH_B_LEFT := 0]>
      (<[CH_A_REV := 0]> (<[CH_A_FWD := 0]> (ledc st)))))
    (lastLogMillis st)
    (trace st ++ [LogMessage "Motors stopped due to command timeout.";
                  DigitalWrite_stby LOW;
                  LedcWrite CH_A_FWD 0; LedcWrite CH_A_REV 0;
                  LedcWrite CH_B_LEFT 0; LedcWrite CH_B_RIGHT 0]).
Proof.
  destruct (Z.ltb_spec COMMAND_TIMEOUT (ulong_sub millis (lastCommandTime st))) as [Hlate|Hearly].
  - destruct (Z.eq_dec (targetA st) 0) as [HA|HA];
      [destruct (Z.eq_dec (targetB st) 0) as [HB|HB]|].
    + left. now apply commandTimeout_idle.
    + right. apply commandTimeout_fires; auto.
    + right. apply commandTimeout_fires; auto.
  - left. unfold commandTimeout. apply Z.ltb_ge in Hearly. rewrite Hearly. reflexivity.
Qed.

(** *** The WebSocket sketch: reading the channels *)

Lemma ledcRead_written a b t m e l h tr ch v :
  ledcRead (mkState a b t m e (<[ch := v]> l) h tr) ch = v.
Proof. unfold ledcRead. cbn [ledc]. now rewrite lookup_insert_eq. Qed.

Lemma ledcRead_other a b t m e l h tr ch ch' v :
  ch' <> ch ->
  ledcRead (mkState a b t m e (<[ch' := v]> l) h tr) ch =
  ledcRead (mkState a b t m e l h tr) ch.
Proof. intros Hne. unfold ledcRead. cbn [ledc]. now rewrite lookup_insert_ne. Qed.

Lemma channels_distinct :
  CH_A_FWD <> CH_A_REV /\ CH_A_FWD <> CH_B_LEFT /\ CH_A_FWD <> CH_B_RIGHT /\
  CH_A_REV <> CH_B_LEFT /\ CH_A_REV <> CH_B_RIGHT /\ CH_B_LEFT <> CH_B_RIGHT.
Proof. unfold CH_A_FWD, CH_A_REV, CH_B_LEFT, CH_B_RIGHT. repeat split; discriminate. Qed.

(** Read a channel of a state whose map is a stack of writes. *)
Ltac ledc_read :=
  destruct channels_distinct as (? & ? & ? & ? & ? & ?);
  repeat first
    [ rewrite ledcRead_written
    | rewrite ledcRead_other by congruence ].

Lemma policy_of_duties d :
  -255 <= d <= 255 -> channel_policy d (fwd_duty d) (rev_duty d).
Proof.
  intros Hd. unfold channel_policy, fwd_duty, rev_duty.
  destruct (Z.ltb_spec 0 d), (Z.ltb_spec d 0);
    try rewrite (abs_small d Hd); lia.
Qed.

Lemma policy_of_zero : channel_policy 0 0 0.
Proof. unfold channel_policy. lia. Qed.

(** Split [consistent] into its five parts. *)
Ltac consistent_parts :=
  unfold consistent; refine (conj _ (conj _ (conj _ (conj _ _)))).

(** *** The WebSocket sketch: the invariant *)

Lemma consistent_ext st st' :
  targetA st' = targetA st -> targetB st' = targetB st ->
  ledc st' = ledc st -> motor_stby st' = motor_stby st ->
  consistent st -> consistent st'.
Proof.
  unfold consistent, ledcRead. intros -> -> -> ->. auto.
Qed.

Lemma consistent_emergencyStopNow st : consistent (emergencyStopNow st).
Proof.
  rewrite emergencyStopNow_unfold. consistent_parts;
    cbn [targetA targetB motor_stby]; ledc_read;
    try lia; try apply policy_of_zero; auto.
Qed.

Lemma consistent_driveManual steer throttle millis st :
  consistent (driveManual steer throttle millis st).
Proof.
  rewrite driveManual_unfold.
  set (dA := constrain (int_div (int_mul throttle MAX_DUTY) 100) _ _).
  set (dB := constrain (int_div (int_mul steer MAX_DUTY) 100) _ _).
  assert (-255 <= dA <= 255) by (apply constrain_bounds; unfold MAX_DUTY; lia).
  assert (-255 <= dB <= 255) by (apply constrain_bounds; unfold MAX_DUTY; lia).
  consistent_parts; cbn [targetA targetB motor_stby]; ledc_read;
    try lia; try (apply policy_of_duties; lia).
  unfold HIGH, LOW; discriminate.
Qed.

Lemma consistent_commandTimeout millis st :
  consistent st -> consistent (commandTimeout millis st).
Proof.
  intros Hst. destruct (commandTimeout_cases millis st) as [-> | ->]; [exact Hst|].
  consistent_parts; cbn [targetA targetB motor_stby]; ledc_read;
    try lia; try apply policy_of_zero; auto.
Qed.

Lemma consistent_heartbeat millis st :
  consistent st -> consistent (heartbeat millis st).
Proof.
  intros Hst. unfold heartbeat. destruct (5000 <? _); [|exact Hst].
  revert Hst. apply consistent_ext; reflexivity.
Qed.

Lemma consistent_webSocketEvent type millis st :
  consistent st -> consistent (webSocketEvent deserializeJson type millis st).
Proof.
  intros Hst. destruct type as [ip| |payload|]; unfold webSocketEvent.
  - revert Hst. apply consistent_ext; reflexivity.
  - unfold seq. apply consistent_emergencyStopNow.
  - destruct (String.length (c_str payload) =? 1)%nat.
    + unfold seq at 1.
      apply consistent_ext with
        (st := (if (default "000"%char (get 0 (c_str payload)) =? "A")%char
                then set_currentMode AUTO >>> sendLogMessage "Mode Switched: AUTO"
                else if (default "000"%char (get 0 (c_str payload)) =? "M")%char
                then set_currentMode MANUAL >>> sendLogMessage "Mode Switched: MANUAL"
                else if (default "000"%char (get 0 (c_str payload)) =? "S")%char
                then emergencyStopNow else skip) st); try reflexivity.
      destruct (_ =? "A")%char; [revert Hst; apply consistent_ext; reflexivity|].
      destruct (_ =? "M")%char; [revert Hst; apply consistent_ext; reflexivity|].
      destruct (_ =? "S")%char; [apply consistent_emergencyStopNow|exact Hst].
    + destruct (deserializeJson (c_str payload)) as [err|doc].
      * revert Hst. apply consistent_ext; reflexivity.
      * unfold seq.
        match goal with |- consistent (broadcastStatus _ _ ?s) =>
          apply consistent_ext with (st := s); try reflexivity end.
        destruct (DriveMode_eqb (currentMode st) MANUAL);
          [apply consistent_driveManual|exact Hst].
  - exact Hst.
Qed.

Lemma consistent_setup : consistent setup.
Proof.
  consistent_parts; unfold setup, ledcRead; cbn [targetA targetB motor_stby ledc];
    rewrite ?lookup_empty; try lia; try apply policy_of_zero; auto.
Qed.

Lemma reachable_consistent st :
  reachable deserializeJson st -> consistent st.
Proof.
  induction 1 as [|ev st Hreach IH].
  - apply consistent_setup.
  - destruct ev as [type millis|millis]; unfold step.
    + now apply consistent_webSocketEvent.
    + unfold loop, seq. now apply consistent_heartbeat, consistent_commandTimeout.
Qed.

(** The writes of a joystick record in MANUAL mode, in program order. *)
Lemma manual_record_trace payload doc millis st :
  currentMode st = MANUAL ->
  String.length (c_str payload) <> 1%nat ->
  deserializeJson (c_str payload) = inr doc ->
  let st' := webSocketEvent deserializeJson (WStype_TEXT payload) millis st in
  exists status,
    trace st' =
      trace st ++
        [DigitalWrite_stby HIGH;
         LedcWrite CH_A_FWD (ledcRead st' CH_A_FWD);
         LedcWrite CH_A_REV (ledcRead st' CH_A_REV);
         LedcWrite CH_B_RIGHT (ledcRead st' CH_B_RIGHT);
         LedcWrite CH_B_LEFT (ledcRead st' CH_B_LEFT);
         status].
Proof.
  intros Hmode Hlen Hdoc st'. subst st'.
  rewrite (webSocketEvent_json _ _ _ _ Hlen Hdoc), Hmode, driveManual_unfold.
  destruct channels_distinct as (Hab & Hac & Had & Hbc & Hbd & Hcd).
  unfold broadcastStatus, emit. cbn [trace currentMode].
  unfold ledcRead. cbn [ledc].
  repeat first [rewrite lookup_insert_eq | rewrite lookup_insert_ne by congruence].
  cbn [default from_option id].
  eexists. rewrite <- app_assoc. cbn [app]. reflexivity.
Qed.

End CarFacts.

(** *** The joystick scaling *)

Lemma constrain_clamp x lo hi : lo <= hi -> constrain x lo hi = clamp x lo hi.
Proof.
  intros Hle. unfold constrain, clamp.
  destruct (Z.ltb_spec x lo); [lia|].
  destruct (Z.ltb_spec hi x); lia.
Qed.

Lemma axis_duty x :
  Z.abs x <= 8421504 ->
  let d := constrain (int_div (int_mul x Car.MAX_DUTY) 100) (- Car.MAX_DUTY) Car.MAX_DUTY in
  d = clamp (x * Car.MAX_DUTY ÷ 100) (- Car.MAX_DUTY) Car.MAX_DUTY /\
  d = clamp x (-100) 100 * Car.MAX_DUTY ÷ 100 /\
  (-100 <= x <= 100 -> x <> 0 -> Z.sgn d = Z.sgn x).
Proof.
  intros Hx d. subst d. unfold Car.MAX_DUTY.
  rewrite scale_no_overflow by exact Hx.
  rewrite constrain_clamp by lia. unfold clamp.
  repeat split; intros; Z.to_euclidean_division_equations; lia.
Qed.

(** ** The claims about the WebSocket sketch *)

Section CarClaims.
Import Car.

(** C1, counterexample: a joystick record with [steer = 0] and
    [throttle = 0], processed in MANUAL mode right after [setup], leaves both
    duties at zero and the standby line asserted. *)
Lemma enable_line_counterexample :
  let st := step sample_deserializeJson
              (WebSocket (WStype_TEXT (axis_payload "0" "0")) 10) setup in
  reachable sample_deserializeJson st /\
  currentMode setup = MANUAL /\
  targetA st = 0 /\ targetB st = 0 /\ motor_stby st = HIGH.
Proof.
  intros st. split.
  - apply reachable_step, reachable_setup.
  - vm_compute. auto.
Qed.

(** C1, amended: in every reachable state a nonzero duty implies an
    asserted standby line (a deasserted line implies both duties are zero);
    the emergency stop and the timeout stop leave the line deasserted with
    both duties zero; a joystick record processed in MANUAL mode always
    leaves the line asserted, whatever the duties. *)
Theorem enable_line_invariant
    (deserializeJson : string -> string + JsonDocument) (st : state) :
  reachable deserializeJson st ->
  (targetA st <> 0 \/ targetB st <> 0 -> motor_stby st = HIGH) /\
  (motor_stby st = LOW -> targetA st = 0 /\ targetB st = 0) /\
  (motor_stby (emergencyStopNow st) = LOW /\
   targetA (emergencyStopNow st) = 0 /\ targetB (emergencyStopNow st) = 0) /\
  (forall millis,
     COMMAND_TIMEOUT < ulong_sub millis (lastCommandTime st) ->
     targetA st <> 0 \/ targetB st <> 0 ->
     motor_stby (commandTimeout millis st) = LOW /\
     targetA (commandTimeout millis st) = 0 /\
     targetB (commandTimeout millis st) = 0) /\
  (forall payload doc millis,
     currentMode st = MANUAL ->
     String.length (c_str payload) <> 1%nat ->
     deserializeJson (c_str payload) = inr doc ->
     motor_stby (webSocketEvent deserializeJson (WStype_TEXT payload) millis st) = HIGH).
Proof.
  intros Hreach.
  destruct (reachable_consistent _ _ Hreach) as (_ & _ & _ & _ & Hlow).
  split; [|split; [exact Hlow|split; [|split]]].
  - intros Hrun. destruct (motor_stby st) eqn:Hstby; [reflexivity|].
    destruct (Hlow eq_refl) as [HA HB]. destruct Hrun; contradiction.
  - rewrite emergencyStopNow_unfold. auto.
  - intros millis Hlate Hrun. rewrite commandTimeout_fires by assumption. auto.
  - intros payload doc millis Hmode Hlen Hdoc.
    rewrite (webSocketEvent_json _ _ _ _ _ Hlen Hdoc), Hmode.
    change (motor_stby (broadcastStatus ?t ?s ?x)) with (motor_stby x).
    rewrite driveManual_unfold. reflexivity.
Qed.

(** The invariant at the state reached by one joystick record. *)
Lemma enable_line_invariant_witness :
  let st := step sample_deserializeJson
              (WebSocket (WStype_TEXT (axis_payload "50" "50")) 10) setup in
  reachable sample_deserializeJson st /\
  (targetA st <> 0 \/ targetB st <> 0 -> motor_stby st = HIGH).
Proof.
  intros st.
  assert (reachable sample_deserializeJson st) as Hreach
    by apply reachable_step, reachable_setup.
  split; [exact Hreach|].
  exact (proj1 (enable_line_invariant sample_deserializeJson st Hreach)).
Defined.

(** C3, counterexample: [throttle = 8421505] makes [throttle * MAX_DUTY]
    exceed the 32-bit range; the wrapped product is negative and the stored
    duty is [-255], where the stated formula gives [255]. *)
Lemma axis_scaling_counterexample :
  let st := webSocketEvent sample_deserializeJson
              (WStype_TEXT (axis_payload "0" "8421505")) 10 setup in
  currentMode setup = MANUAL /\
  targetA st = -255 /\
  clamp (8421505 * MAX_DUTY ÷ 100) (- MAX_DUTY) MAX_DUTY = 255 /\
  targetA st <> clamp (8421505 * MAX_DUTY ÷ 100) (- MAX_DUTY) MAX_DUTY.
Proof.
  vm_compute. repeat split; discriminate.
Qed.

(** C3, amended: for a joystick record processed in MANUAL mode whose
    [steer] and [throttle] (0 when the member is missing) are at most
    8421504 in absolute value, so that the product with [MAX_DUTY] fits an
    [int], the stored duties are the clamped scaled values with division
    truncating toward zero; they coincide with scaling the input clamped to
    [-100, 100]; and a nonzero input in [-100, 100] gives a duty of the same
    sign. *)
Theorem axis_scaling
    (deserializeJson : string -> string + JsonDocument) (st : state)
    (payload : string) (doc : JsonDocument) (millis : Z) :
  currentMode st = MANUAL ->
  String.length (c_str payload) <> 1%nat ->
  deserializeJson (c_str payload) = inr doc ->
  let steer := member_or doc "steer" 0 in
  let throttle := member_or doc "throttle" 0 in
  Z.abs steer <= 8421504 ->
  Z.abs throttle <= 8421504 ->
  let st' := webSocketEvent deserializeJson (WStype_TEXT payload) millis st in
  (doc !! "steer"%string = None -> steer = 0) /\
  (doc !! "throttle"%string = None -> throttle = 0) /\
  targetA st' = clamp (throttle * MAX_DUTY ÷ 100) (- MAX_DUTY) MAX_DUTY /\
  targetB st' = clamp (steer * MAX_DUTY ÷ 100) (- MAX_DUTY) MAX_DUTY /\
  targetA st' = clamp throttle (-100) 100 * MAX_DUTY ÷ 100 /\
  targetB st' = clamp steer (-100) 100 * MAX_DUTY ÷ 100 /\
  (-100 <= throttle <= 100 -> throttle <> 0 -> Z.sgn (targetA st') = Z.sgn throttle) /\
  (-100 <= steer <= 100 -> steer <> 0 -> Z.sgn (targetB st') = Z.sgn steer).
Proof.
  intros Hmode Hlen Hdoc steer throttle Hsteer Hthrottle st'.
  assert (targetA st' =
          constrain (int_div (int_mul throttle MAX_DUTY) 100) (- MAX_DUTY) MAX_DUTY
          /\ targetB st' =
          constrain (int_div (int_mul steer MAX_DUTY) 100) (- MAX_DUTY) MAX_DUTY)
    as [-> ->].
  { subst st'. rewrite (webSocketEvent_json _ _ _ _ _ Hlen Hdoc), Hmode.
    fold steer throttle.
    change (targetA (broadcastStatus ?t ?s ?x)) with (targetA x).
    change (targetB (broadcastStatus ?t ?s ?x)) with (targetB x).
    rewrite driveManual_unfold. split; reflexivity. }
  destruct (axis_duty throttle Hthrottle) as (HA1 & HA2 & HA3).
  destruct (axis_duty steer Hsteer) as (HB1 & HB2 & HB3).
  split; [|split].
  - intros Hnone. subst steer. unfold member_or. now rewrite Hnone.
  - intros Hnone. subst throttle. unfold member_or. now rewrite Hnone.
  - auto 10.
Qed.

(** The scaling at [steer = 100], [throttle = 0]: motor B at full duty. *)
Lemma axis_scaling_witness :
  let st' := webSocketEvent sample_deserializeJson
               (WStype_TEXT (axis_payload "100" "0")) 10 setup in
  targetA st' = 0 /\ targetB st' = 255.
Proof.
  pose proof (axis_scaling sample_deserializeJson setup (axis_payload "100" "0")
                {[ "steer"%string := 100; "throttle"%string := 0 ]} 10
                eq_refl ltac:(vm_compute; discriminate) eq_refl
                ltac:(vm_compute; discriminate) ltac:(vm_compute; discriminate))
    as (_ & _ & HA & HB & _).
  split; [exact HA | exact HB].
Defined.

(** C4: on a loop iteration more than [COMMAND_TIMEOUT] = 300 ms after
    the last accepted command, with a nonzero duty, the timeout block zeroes
    both duties, deasserts the standby line, zeroes the four PWM channels and
    emits exactly one log line; with both duties already zero it does
    nothing at all; the rest of [loop], the heartbeat, touches no motor
    state and does nothing unless its own 5 s period has elapsed. *)
Theorem command_timeout (st : state) (millis : Z) :
  COMMAND_TIMEOUT = 300 /\
  (COMMAND_TIMEOUT < ulong_sub millis (lastCommandTime st) ->
   targetA st <> 0 \/ targetB st <> 0 ->
   let st' := commandTimeout millis st in
   targetA st' = 0 /\ targetB st' = 0 /\
   motor_stby st' = LOW /\
   ledc st' !! CH_A_FWD = Some 0 /\ ledc st' !! CH_A_REV = Some 0 /\
   ledc st' !! CH_B_LEFT = Some 0 /\ ledc st' !! CH_B_RIGHT = Some 0 /\
   trace st' =
     trace st ++ [LogMessage "Motors stopped due to command timeout.";
                  DigitalWrite_stby LOW;
                  LedcWrite CH_A_FWD 0; LedcWrite CH_A_REV 0;
                  LedcWrite CH_B_LEFT 0; LedcWrite CH_B_RIGHT 0]) /\
  (targetA st = 0 -> targetB st = 0 -> commandTimeout millis st = st) /\
  (let st' := commandTimeout millis st in
   targetA (loop millis st) = targetA st' /\
   targetB (loop millis st) = targetB st' /\
   motor_stby (loop millis st) = motor_stby st' /\
   ledc (loop millis st) = ledc st' /\
   lastCommandTime (loop millis st) = lastCommandTime st' /\
   (ulong_sub millis (lastLogMillis st') <= 5000 -> loop millis st = st')).
Proof.
  split; [reflexivity|split; [|split]].
  - intros Hlate Hrun st'. subst st'.
    rewrite commandTimeout_fires by assumption.
    cbn [targetA targetB motor_stby ledc trace].
    destruct channels_distinct as (? & ? & ? & ? & ? & ?).
    repeat split;
      repeat first [rewrite lookup_insert_eq | rewrite lookup_insert_ne by congruence];
      reflexivity.
  - apply commandTimeout_idle.
  - intros st'. unfold loop, seq, heartbeat. fold st'.
    destruct (Z.ltb_spec 5000 (ulong_sub millis (lastLogMillis st')));
      repeat split; try reflexivity; lia.
Qed.

(** A timeout 301 ms after a joystick record, and the idle second check. *)
Lemma command_timeout_witness :
  let st := webSocketEvent sample_deserializeJson
              (WStype_TEXT (axis_payload "50" "50")) 10 setup in
  targetA st = 127 /\
  targetA (commandTimeout 311 st) = 0 /\
  commandTimeout 311 (commandTimeout 311 st) = commandTimeout 311 st.
Proof.
  intros st.
  destruct (command_timeout st 311) as (_ & Hfire & _).
  destruct (command_timeout (commandTimeout 311 st) 311) as (_ & _ & Hidle & _).
  split; [vm_compute; reflexivity|].
  split.
  - apply Hfire; [vm_compute; reflexivity | left; vm_compute; discriminate].
  - apply Hidle; vm_compute; reflexivity.
Defined.

(** C6, counterexample: in AUTO mode (entered with [A] at time 10) the
    record [steer = 50, throttle = 50] received at time 1000 stores nothing:
    the duties stay 0 where the mapped value is 127, and the last-command
    time stays 10. *)
Lemma auto_axis_counterexample :
  let st0 := webSocketEvent sample_deserializeJson (WStype_TEXT "A") 10 setup in
  let st1 := webSocketEvent sample_deserializeJson
               (WStype_TEXT (axis_payload "50" "50")) 1000 st0 in
  currentMode st0 = AUTO /\
  clamp (50 * MAX_DUTY ÷ 100) (- MAX_DUTY) MAX_DUTY = 127 /\
  targetA st1 = 0 /\ targetB st1 = 0 /\ lastCommandTime st1 = 10 /\
  ~ (targetA st1 = clamp (50 * MAX_DUTY ÷ 100) (- MAX_DUTY) MAX_DUTY /\
     targetB st1 = clamp (50 * MAX_DUTY ÷ 100) (- MAX_DUTY) MAX_DUTY /\
     lastCommandTime st1 = 1000).
Proof.
  vm_compute. repeat split; try reflexivity. intros (H & _). discriminate H.
Qed.

(** C6, amended: a decodable joystick record received in AUTO mode
    changes nothing of the core state: duties, last-command time, mode,
    standby line and PWM channels are as before, and the only effect is one
    status frame reporting the unchanged duties; once [M] has switched to
    MANUAL, the same record stores the mapped duties, refreshes the
    last-command time, asserts the standby line and writes the channels by
    the channel-pair policy. *)
Theorem auto_axis_inert
    (deserializeJson : string -> string + JsonDocument) (st : state)
    (payload : string) (doc : JsonDocument) (millis : Z) :
  currentMode st = AUTO ->
  String.length (c_str payload) <> 1%nat ->
  deserializeJson (c_str payload) = inr doc ->
  let steer := member_or doc "steer" 0 in
  let throttle := member_or doc "throttle" 0 in
  let st1 := webSocketEvent deserializeJson (WStype_TEXT payload) millis st in
  st1 = mkState (targetA st) (targetB st) (lastCommandTime st) (currentMode st)
          (motor_stby st) (ledc st) (lastLogMillis st)
          (trace st ++ [StatusFrame (targetA st) (targetB st) throttle steer AUTO]) /\
  (forall t1 t2,
     let st2 := webSocketEvent deserializeJson (WStype_TEXT "M") t1 st1 in
     let st3 := webSocketEvent deserializeJson (WStype_TEXT payload) t2 st2 in
     currentMode st2 = MANUAL /\
     targetA st3 =
       constrain (int_div (int_mul throttle MAX_DUTY) 100) (- MAX_DUTY) MAX_DUTY /\
     targetB st3 =
       constrain (int_div (int_mul steer MAX_DUTY) 100) (- MAX_DUTY) MAX_DUTY /\
     lastCommandTime st3 = t2 /\
     motor_stby st3 = HIGH /\
     channel_policy (targetA st3) (ledcRead st3 CH_A_FWD) (ledcRead st3 CH_A_REV) /\
     channel_policy (targetB st3) (ledcRead st3 CH_B_RIGHT) (ledcRead st3 CH_B_LEFT)).
Proof.
  intros Hmode Hlen Hdoc steer throttle st1.
  assert (st1 = mkState (targetA st) (targetB st) (lastCommandTime st) (currentMode st)
          (motor_stby st) (ledc st) (lastLogMillis st)
          (trace st ++ [StatusFrame (targetA st) (targetB st) throttle steer AUTO]))
    as Hst1.
  { subst st1. rewrite (webSocketEvent_json _ _ _ _ _ Hlen Hdoc), Hmode.
    unfold broadcastStatus, emit. rewrite Hmode. reflexivity. }
  split; [exact Hst1|].
  intros t1 t2 st2 st3.
  assert (currentMode st2 = MANUAL) as Hmanual by reflexivity.
  split; [exact Hmanual|].
  subst st3. rewrite (webSocketEvent_json _ _ _ _ _ Hlen Hdoc), Hmanual.
  fold steer throttle.
  pose proof (consistent_driveManual steer throttle t2 st2) as (_ & _ & HpA & HpB & _).
  revert HpA HpB. rewrite driveManual_unfold.
  unfold ledcRead, broadcastStatus, emit.
  cbn [targetA targetB lastCommandTime motor_stby ledc].
  auto 10.
Qed.

(** The inert AUTO path on the record [steer = 50, throttle = 50]. *)
Lemma auto_axis_inert_witness :
  let st0 := webSocketEvent sample_deserializeJson (WStype_TEXT "A") 10 setup in
  let st1 := webSocketEvent sample_deserializeJson
               (WStype_TEXT (axis_payload "50" "50")) 1000 st0 in
  currentMode st0 = AUTO /\
  targetA st1 = targetA st0 /\ lastCommandTime st1 = lastCommandTime st0.
Proof.
  intros st0 st1.
  pose proof (auto_axis_inert sample_deserializeJson st0 (axis_payload "50" "50")
                {[ "steer"%string := 50; "throttle"%string := 50 ]} 1000
                eq_refl ltac:(vm_compute; discriminate) eq_refl) as [Hst1 _].
  fold st1 in Hst1.
  split; [reflexivity|]. rewrite Hst1. split; reflexivity.
Defined.

(** C8, counterexample: the three-byte message [x], NUL, [y] is not
    decodable, but the code reads it as the C string [x]: it takes the
    one-character branch, logs nothing and sets the last-command time. *)
Lemma json_parse_error_counterexample :
  let payload := String "x" (String "000" (String "y" EmptyString)) in
  let st' := webSocketEvent sample_deserializeJson (WStype_TEXT payload) 300 setup in
  (1 < String.length payload)%nat /\
  sample_deserializeJson payload = inl "InvalidInput"%string /\
  sample_deserializeJson (c_str payload) = inl "InvalidInput"%string /\
  lastCommandTime setup = 0 /\ lastCommandTime st' = 300 /\
  trace st' = trace setup.
Proof.
  vm_compute. repeat split; lia.
Qed.

(** C8, amended: a message whose C string, the bytes before the first
    NUL, is not one character long and is rejected by [deserializeJson]
    appends one log line to the trace and changes nothing else: duties, PWM
    channels, standby line, mode and last-command time are those of the
    state before. *)
Theorem json_parse_error_is_atomic
    (deserializeJson : string -> string + JsonDocument) (st : state)
    (payload err : string) (millis : Z) :
  String.length (c_str payload) <> 1%nat ->
  deserializeJson (c_str payload) = inl err ->
  webSocketEvent deserializeJson (WStype_TEXT payload) millis st =
  mkState (targetA st) (targetB st) (lastCommandTime st) (currentMode st)
    (motor_stby st) (ledc st) (lastLogMillis st)
    (trace st ++ [LogMessage ("WS Error: JSON parse failed: " ++ err)]).
Proof.
  intros Hlen Herr.
  rewrite (webSocketEvent_error _ payload err) by assumption.
  reflexivity.
Qed.

(** The rejected message [stop] while the motors run. *)
Lemma json_parse_error_is_atomic_witness :
  let st := webSocketEvent sample_deserializeJson
              (WStype_TEXT (axis_payload "50" "50")) 10 setup in
  let st' := webSocketEvent sample_deserializeJson (WStype_TEXT "stop") 20 st in
  targetA st' = 127 /\ targetB st' = 127 /\ lastCommandTime st' = 10 /\
  trace st' = trace st ++ [LogMessage "WS Error: JSON parse failed: InvalidInput"].
Proof.
  intros st st'.
  pose proof (json_parse_error_is_atomic sample_deserializeJson st "stop"
                "InvalidInput" 20 ltac:(vm_compute; lia) eq_refl) as Hst'.
  fold st' in Hst'. rewrite Hst'. vm_compute. auto.
Defined.

(** C9, counterexample: the one-character message that holds the NUL
    byte is read as the empty C string: it takes the JSON branch, is
    rejected, logs one line and leaves the last-command time as it was. *)
Lemma unknown_char_counterexample :
  let st' := webSocketEvent sample_deserializeJson
               (WStype_TEXT (String "000" EmptyString)) 200 setup in
  "000"%char <> "A"%char /\ "000"%char <> "M"%char /\ "000"%char <> "S"%char /\
  lastCommandTime setup = 0 /\ lastCommandTime st' = 0 /\
  trace setup = [] /\
  trace st' = [LogMessage "WS Error: JSON parse failed: InvalidInput"].
Proof.
  vm_compute. repeat split; discriminate.
Qed.

(** C9, amended: a message whose C string, the bytes before the first
    NUL, is one character other than [A], [M] and [S] (so every
    one-character message other than these three and the NUL byte) sets the
    last-command time to the current time and changes nothing else: no duty,
    no PWM channel, not the standby line, not the mode, and the trace gets
    no write and no log line. *)
Theorem unknown_char_refreshes_timer
    (deserializeJson : string -> string + JsonDocument) (st : state)
    (payload : string) (c : ascii) (millis : Z) :
  c_str payload = String c EmptyString ->
  c <> "A"%char -> c <> "M"%char -> c <> "S"%char ->
  webSocketEvent deserializeJson (WStype_TEXT payload) millis st =
  mkState (targetA st) (targetB st) millis (currentMode st)
    (motor_stby st) (ledc st) (lastLogMillis st) (trace st).
Proof.
  intros Hc HA HM HS. unfold webSocketEvent. rewrite Hc.
  cbn [String.length Nat.eqb String.get default from_option id].
  apply Ascii.eqb_neq in HA, HM, HS. rewrite HA, HM, HS.
  reflexivity.
Qed.

(** The unknown command [x], alone and followed by a NUL and more, while
    the motors run. *)
Lemma unknown_char_refreshes_timer_witness :
  let st := webSocketEvent sample_deserializeJson
              (WStype_TEXT (axis_payload "50" "50")) 10 setup in
  let st' := webSocketEvent sample_deserializeJson (WStype_TEXT "x") 200 st in
  let st'' := webSocketEvent sample_deserializeJson
                (WStype_TEXT (String "x" (String "000" (String "y" EmptyString)))) 200 st in
  lastCommandTime st' = 200 /\ targetA st' = 127 /\ trace st' = trace st /\
  st'' = st'.
Proof.
  intros st st' st''.
  pose proof (unknown_char_refreshes_timer sample_deserializeJson st "x" "x" 200
                eq_refl ltac:(discriminate) ltac:(discriminate) ltac:(discriminate))
    as Hst'.
  pose proof (unknown_char_refreshes_timer sample_deserializeJson st
                (String "x" (String "000" (String "y" EmptyString))) "x" 200
                eq_refl ltac:(discriminate) ltac:(discriminate) ltac:(discriminate))
    as Hst''.
  fold st' in Hst'. fold st'' in Hst''. rewrite Hst'', Hst'. vm_compute. auto.
Defined.

End CarClaims.

(** ** The BLE sketch: what each callback computes *)

Ltac ble_step :=
  cbv beta iota zeta delta
    [seq skip Ble.emit Ble.set_deviceConnected Ble.ledcWrite
     Ble.Serial_print Ble.Serial_println
     Ble.ledc Ble.deviceConnected Ble.trace].

Section BleFacts.
Import Ble.

Lemma setMotorSpeed_unfold in1_pin in2_pin speed st :
  let d := constrain speed (-255) 255 in
  setMotorSpeed in1_pin in2_pin speed st =
  mkState (<[in2_pin := rev_duty d]> (<[in1_pin := fwd_duty d]> (ledc st)))
    (deviceConnected st)
    (trace st ++ [LedcWrite in1_pin (fwd_duty d); LedcWrite in2_pin (rev_duty d)]).
Proof.
  intros d. destruct st as [l c tr]. unfold setMotorSpeed. fold d.
  assert (-255 <= d <= 255) as Hd by (apply constrain_bounds; lia).
  unfold fwd_duty, rev_duty.
  destruct (Z.ltb_spec 0 d) as [Hpos|Hnpos].
  - rewrite (abs_small d Hd), Z.abs_eq by lia.
    ble_step. rewrite <- !app_assoc. reflexivity.
  - destruct (d <? 0); ble_step; rewrite <- !app_assoc; reflexivity.
Qed.

Lemma onWrite_unfold rxValue st :
  (0 < String.length rxValue)%nat ->
  let d1 := constrain (m1_speed_of rxValue) (-255) 255 in
  let d2 := constrain (m2_speed_of rxValue) (-255) 255 in
  ledc (onWrite rxValue st) =
    <[M2_IN2_PIN := rev_duty d2]> (<[M2_IN1_PIN := fwd_duty d2]>
      (<[M1_IN2_PIN := rev_duty d1]> (<[M1_IN1_PIN := fwd_duty d1]> (ledc st)))) /\
  deviceConnected (onWrite rxValue st) = deviceConnected st.
Proof.
  intros Hlen d1 d2. subst d1 d2. unfold onWrite, m1_speed_of, m2_speed_of.
  apply Nat.ltb_lt in Hlen. rewrite Hlen.
  destruct st as [l c tr].
  destruct (find rxValue "M1:" 0) as [m1_pos|];
    [destruct (stoi (m1_str rxValue m1_pos)) as [v1|]|];
    (destruct (find rxValue "M2:" 0) as [m2_pos|];
     [destruct (stoi (m2_str rxValue m2_pos)) as [v2|]|]);
    unfold seq; rewrite !setMotorSpeed_unfold; split; reflexivity.
Qed.

Lemma ble_ledcRead_written l c tr pin v :
  ledcRead (mkState (<[pin := v]> l) c tr) pin = v.
Proof. unfold ledcRead. cbn [ledc]. now rewrite lookup_insert_eq. Qed.

Lemma ble_ledcRead_other l c tr pin pin' v :
  pin' <> pin ->
  ledcRead (mkState (<[pin' := v]> l) c tr) pin = ledcRead (mkState l c tr) pin.
Proof. intros Hne. unfold ledcRead. cbn [ledc]. now rewrite lookup_insert_ne. Qed.

Lemma setMotorSpeed_policy in1_pin in2_pin speed st :
  in1_pin <> in2_pin ->
  channel_policy (constrain speed (-255) 255)
    (ledcRead (setMotorSpeed in1_pin in2_pin speed st) in1_pin)
    (ledcRead (setMotorSpeed in1_pin in2_pin speed st) in2_pin).
Proof.
  intros Hne. rewrite setMotorSpeed_unfold.
  rewrite ble_ledcRead_written, ble_ledcRead_other, ble_ledcRead_written by congruence.
  apply policy_of_duties, constrain_bounds. lia.
Qed.

Lemma setMotorSpeed_frame in1_pin in2_pin speed st pin :
  pin <> in1_pin -> pin <> in2_pin ->
  ledcRead (setMotorSpeed in1_pin in2_pin speed st) pin = ledcRead st pin.
Proof.
  intros H1 H2. rewrite setMotorSpeed_unfold.
  rewrite !ble_ledcRead_other by congruence. now destruct st.
Qed.

Lemma pins_distinct :
  M1_IN1_PIN <> M1_IN2_PIN /\ M1_IN1_PIN <> M2_IN1_PIN /\ M1_IN1_PIN <> M2_IN2_PIN /\
  M1_IN2_PIN <> M2_IN1_PIN /\ M1_IN2_PIN <> M2_IN2_PIN /\ M2_IN1_PIN <> M2_IN2_PIN.
Proof. unfold M1_IN1_PIN, M1_IN2_PIN, M2_IN1_PIN, M2_IN2_PIN. repeat split; discriminate. Qed.

Lemma onWrite_no_tokens rxValue st :
  (0 < String.length rxValue)%nat ->
  find rxValue "M1:" 0 = None ->
  find rxValue "M2:" 0 = None ->
  onWrite rxValue st =
  mkState
    (<[M2_IN2_PIN := 0]> (<[M2_IN1_PIN := 0]>
      (<[M1_IN2_PIN := 0]> (<[M1_IN1_PIN := 0]> (ledc st)))))
    (deviceConnected st)
    (trace st ++ [SerialPrint "Received Value: "; SerialPrint (c_str rxValue);
                  LedcWrite M1_IN1_PIN 0; LedcWrite M1_IN2_PIN 0;
                  LedcWrite M2_IN1_PIN 0; LedcWrite M2_IN2_PIN 0]).
Proof.
  intros Hlen H1 H2. unfold onWrite.
  apply Nat.ltb_lt in Hlen. rewrite Hlen, H1, H2.
  destruct st as [l c tr]. unfold seq. rewrite !setMotorSpeed_unfold.
  change (constrain 0 (-255) 255) with 0.
  change (fwd_duty 0) with 0. change (rev_duty 0) with 0.
  ble_step. rewrite <- !app_assoc. reflexivity.
Qed.

(** *** The BLE sketch: the invariant *)

Lemma ble_exclusive_ext st st' :
  ledc st' = ledc st -> ble_exclusive st -> ble_exclusive st'.
Proof. unfold ble_exclusive, ledcRead. intros ->. auto. Qed.

Lemma ble_exclusive_M1 speed st :
  ble_exclusive st -> ble_exclusive (setMotorSpeed M1_IN1_PIN M1_IN2_PIN speed st).
Proof.
  intros [_ H2]. destruct pins_distinct as (? & ? & ? & ? & ? & ?). split.
  - eapply channel_policy_exclusive, setMotorSpeed_policy. assumption.
  - rewrite !setMotorSpeed_frame by congruence. exact H2.
Qed.

Lemma ble_exclusive_M2 speed st :
  ble_exclusive st -> ble_exclusive (setMotorSpeed M2_IN1_PIN M2_IN2_PIN speed st).
Proof.
  intros [H1 _]. destruct pins_distinct as (? & ? & ? & ? & ? & ?). split.
  - rewrite !setMotorSpeed_frame by congruence. exact H1.
  - eapply channel_policy_exclusive, setMotorSpeed_policy. assumption.
Qed.

Lemma ble_exclusive_idle c tr : ble_exclusive (mkState ∅ c tr).
Proof.
  unfold ble_exclusive, ledcRead. cbn [ledc]. rewrite !lookup_empty.
  split; intros [H _]; now apply H.
Qed.

Lemma ble_exclusive_onWrite rxValue st :
  ble_exclusive st -> ble_exclusive (onWrite rxValue st).
Proof.
  intros Hst. destruct (Nat.ltb_spec 0 (String.length rxValue)) as [Hlen|Hlen].
  - destruct (onWrite_unfold rxValue st Hlen) as [Hledc _].
    apply ble_exclusive_ext with
      (st := setMotorSpeed M2_IN1_PIN M2_IN2_PIN (m2_speed_of rxValue)
               (setMotorSpeed M1_IN1_PIN M1_IN2_PIN (m1_speed_of rxValue) st)).
    + rewrite Hledc, !setMotorSpeed_unfold. reflexivity.
    + now apply ble_exclusive_M2, ble_exclusive_M1.
  - unfold onWrite. apply Nat.ltb_ge in Hlen. now rewrite Hlen.
Qed.

Lemma ble_exclusive_setup : ble_exclusive setup.
Proof.
  unfold setup, seq.
  match goal with |- ble_exclusive (Serial_println _ (emit _ ?s)) =>
    apply ble_exclusive_ext with (st := s); [reflexivity|] end.
  apply ble_exclusive_M2, ble_exclusive_M1.
  match goal with |- ble_exclusive ?s =>
    apply ble_exclusive_ext with (st := mkState ∅ false []); [reflexivity|] end.
  apply ble_exclusive_idle.
Qed.

Lemma reachable_ble_exclusive st : reachable st -> ble_exclusive st.
Proof.
  induction 1 as [|ev st Hreach IH].
  - apply ble_exclusive_setup.
  - destruct ev as [rxValue| | |]; unfold step.
    + now apply ble_exclusive_onWrite.
    + unfold onConnect, seq. apply ble_exclusive_M2, ble_exclusive_M1.
      revert IH. apply ble_exclusive_ext. reflexivity.
    + unfold onDisconnect, seq.
      match goal with |- ble_exclusive (emit _ ?s) =>
        apply ble_exclusive_ext with (st := s); [reflexivity|] end.
      apply ble_exclusive_M1. revert IH. apply ble_exclusive_ext. reflexivity.
    + exact IH.
Qed.

(** *** The BLE sketch: the channels after a write *)

Lemma onWrite_reads rxValue st :
  (0 < String.length rxValue)%nat ->
  let d1 := constrain (m1_speed_of rxValue) (-255) 255 in
  let d2 := constrain (m2_speed_of rxValue) (-255) 255 in
  let st' := onWrite rxValue st in
  ledcRead st' M1_IN1_PIN = fwd_duty d1 /\ ledcRead st' M1_IN2_PIN = rev_duty d1 /\
  ledcRead st' M2_IN1_PIN = fwd_duty d2 /\ ledcRead st' M2_IN2_PIN = rev_duty d2.
Proof.
  intros Hlen d1 d2 st'.
  destruct (onWrite_unfold rxValue st Hlen) as [Hledc _]. fold d1 d2 st' in Hledc.
  destruct pins_distinct as (? & ? & ? & ? & ? & ?).
  unfold ledcRead. rewrite Hledc.
  repeat split;
    repeat first [rewrite lookup_insert_eq | rewrite lookup_insert_ne by congruence];
    reflexivity.
Qed.

(** The comma that ends [m1_str] never lies inside the token [M1:], so
    the length [end_pos - (m1_pos + 3)] is computed without wrap-around. *)
Lemma comma_follows_token rxValue m1_pos end_pos :
  find rxValue "M1:" 0 = Some m1_pos ->
  find rxValue "," m1_pos = Some end_pos ->
  (m1_pos + 3 <= end_pos)%nat.
Proof.
  unfold find. intros Htoken Hcomma.
  apply index_correct1 in Htoken. cbn [String.length] in Htoken.
  assert (m1_pos <= end_pos)%nat as Hle.
  { clear Htoken. revert rxValue end_pos Hcomma.
    induction m1_pos as [|n IH]; intros rx e He; [lia|].
    destruct rx as [|c rx]; cbn [index] in He; [discriminate|].
    destruct (index n "," rx) as [k|] eqn:Hk; [|discriminate].
    injection He as <-. apply IH in Hk. lia. }
  apply index_correct1 in Hcomma. cbn [String.length] in Hcomma.
  destruct (Nat.lt_ge_cases end_pos (m1_pos + 3)) as [Hlt|Hge]; [exfalso|exact Hge].
  assert (get 0 (substring end_pos 1 rxValue) = get (end_pos - m1_pos) "M1:") as Hget.
  { rewrite substring_correct1 by lia. rewrite <- Htoken.
    rewrite substring_correct1 by lia. f_equal. lia. }
  rewrite Hcomma in Hget.
  assert (end_pos - m1_pos = 0 \/ end_pos - m1_pos = 1 \/ end_pos - m1_pos = 2)%nat
    as [E | [E | E]] by lia; rewrite E in Hget; discriminate Hget.
Qed.

End BleFacts.

(** ** The BLE sketch: the trace records every pin write *)

Section BleTrace.
Import Ble.

Lemma synced_ledcWrite pin duty st :
  ble_synced st -> ble_synced (ledcWrite pin duty st).
Proof.
  unfold ble_synced, ledcWrite, ble_replay. cbn [ledc trace]. intros ->.
  rewrite fold_left_app. reflexivity.
Qed.

Lemma synced_emit e st :
  (forall l, ble_apply l e = l) -> ble_synced st -> ble_synced (emit e st).
Proof.
  unfold ble_synced, emit, ble_replay. cbn [ledc trace]. intros He ->.
  rewrite fold_left_app. cbn [fold_left]. now rewrite He.
Qed.

Lemma synced_Serial_print text st :
  ble_synced st -> ble_synced (Serial_print text st).
Proof. now apply synced_emit. Qed.

Lemma synced_Serial_println text st :
  ble_synced st -> ble_synced (Serial_println text st).
Proof. now apply synced_emit. Qed.

Lemma synced_set_deviceConnected b st :
  ble_synced st -> ble_synced (set_deviceConnected b st).
Proof. unfold ble_synced. now destruct st. Qed.

Lemma synced_setMotorSpeed in1_pin in2_pin speed st :
  ble_synced st -> ble_synced (setMotorSpeed in1_pin in2_pin speed st).
Proof.
  intros Hst. unfold setMotorSpeed.
  destruct (0 <? _); [|destruct (_ <? 0)]; unfold seq;
    now apply synced_ledcWrite, synced_ledcWrite.
Qed.

Lemma synced_onWrite rxValue st :
  ble_synced st -> ble_synced (onWrite rxValue st).
Proof.
  intros Hst. unfold onWrite.
  destruct (0 <? String.length rxValue)%nat; [|exact Hst].
  destruct (find rxValue "M1:" 0) as [m1_pos|];
    [destruct (stoi (m1_str rxValue m1_pos)) as [v1|]|];
    (destruct (find rxValue "M2:" 0) as [m2_pos|];
     [destruct (stoi (m2_str rxValue m2_pos)) as [v2|]|]);
    unfold seq;
    repeat first [ apply synced_setMotorSpeed
                 | apply synced_Serial_println
                 | apply synced_Serial_print ];
    exact Hst.
Qed.

Lemma synced_setup : ble_synced setup.
Proof.
  unfold setup, seq.
  apply synced_Serial_println, synced_emit; [reflexivity|].
  apply synced_setMotorSpeed, synced_setMotorSpeed, synced_Serial_println.
  reflexivity.
Qed.

Lemma reachable_synced st : reachable st -> ble_synced st.
Proof.
  induction 1 as [|ev st Hreach IH].
  - apply synced_setup.
  - destruct ev as [rxValue| | |]; unfold step.
    + now apply synced_onWrite.
    + unfold onConnect, seq.
      now apply synced_setMotorSpeed, synced_setMotorSpeed,
        synced_Serial_println, synced_set_deviceConnected.
    + unfold onDisconnect, seq.
      apply synced_emit; [reflexivity|].
      now apply synced_setMotorSpeed, synced_Serial_println,
        synced_set_deviceConnected.
    + exact IH.
Qed.

End BleTrace.

(** ** The claims that involve the BLE sketch *)

(** C2: a WebSocket disconnect runs the full emergency stop, for every
    state; the BLE [onDisconnect] stops motor A only and leaves the two pins
    of motor B as they were, so that after the write [M1:100,M2:100] a
    disconnect leaves pin [M2_IN1_PIN] at duty 100; the sibling [onConnect]
    zeroes all four pins. *)
Theorem disconnect_stops_motors :
  (forall deserializeJson millis st,
     let st' := Car.webSocketEvent deserializeJson Car.WStype_DISCONNECTED millis st in
     Car.targetA st' = 0 /\ Car.targetB st' = 0 /\ Car.motor_stby st' = LOW /\
     Car.ledcRead st' Car.CH_A_FWD = 0 /\ Car.ledcRead st' Car.CH_A_REV = 0 /\
     Car.ledcRead st' Car.CH_B_LEFT = 0 /\ Car.ledcRead st' Car.CH_B_RIGHT = 0) /\
  (forall st,
     let st' := Ble.onDisconnect st in
     Ble.ledcRead st' Ble.M1_IN1_PIN = 0 /\ Ble.ledcRead st' Ble.M1_IN2_PIN = 0 /\
     Ble.ledcRead st' Ble.M2_IN1_PIN = Ble.ledcRead st Ble.M2_IN1_PIN /\
     Ble.ledcRead st' Ble.M2_IN2_PIN = Ble.ledcRead st Ble.M2_IN2_PIN) /\
  (let st := Ble.onWrite "M1:100,M2:100" Ble.setup in
   Ble.reachable (Ble.onDisconnect st) /\
   Ble.ledcRead st Ble.M2_IN1_PIN = 100 /\
   Ble.ledcRead (Ble.onDisconnect st) Ble.M2_IN1_PIN = 100) /\
  (forall st,
     let st' := Ble.onConnect st in
     Ble.ledcRead st' Ble.M1_IN1_PIN = 0 /\ Ble.ledcRead st' Ble.M1_IN2_PIN = 0 /\
     Ble.ledcRead st' Ble.M2_IN1_PIN = 0 /\ Ble.ledcRead st' Ble.M2_IN2_PIN = 0).
Proof.
  split; [|split; [|split]].
  - intros deserializeJson millis st st'. subst st'.
    unfold Car.webSocketEvent, seq. rewrite emergencyStopNow_unfold.
    cbn [Car.targetA Car.targetB Car.motor_stby].
    destruct channels_distinct as (? & ? & ? & ? & ? & ?).
    repeat split;
      repeat first [rewrite ledcRead_written | rewrite ledcRead_other by congruence];
      reflexivity.
  - intros st st'. subst st'. destruct st as [l c tr].
    unfold Ble.onDisconnect, seq. rewrite setMotorSpeed_unfold.
    destruct pins_distinct as (? & ? & ? & ? & ? & ?).
    unfold Ble.emit, Ble.Serial_println, Ble.set_deviceConnected.
    cbn [Ble.ledc Ble.deviceConnected Ble.trace].
    repeat split;
      repeat first [rewrite ble_ledcRead_written | rewrite ble_ledcRead_other by congruence];
      reflexivity.
  - intros st. split; [|split; vm_compute; reflexivity].
    apply (Ble.reachable_step Ble.Disconnect).
    apply (Ble.reachable_step (Ble.Write "M1:100,M2:100")).
    apply Ble.reachable_setup.
  - intros st st'. subst st'. unfold Ble.onConnect, seq.
    destruct pins_distinct as (HA & ? & ? & ? & ? & HB).
    set (s0 := Ble.Serial_println _ _).
    destruct (setMotorSpeed_policy _ _ 0 s0 HA) as (_ & _ & HzA).
    destruct (setMotorSpeed_policy _ _ 0
                (Ble.setMotorSpeed Ble.M1_IN1_PIN Ble.M1_IN2_PIN 0 s0) HB)
      as (_ & _ & HzB).
    destruct (HzA eq_refl) as [HA1 HA2]. destruct (HzB eq_refl) as [HB1 HB2].
    rewrite !(setMotorSpeed_frame Ble.M2_IN1_PIN Ble.M2_IN2_PIN 0 _ Ble.M1_IN1_PIN)
      by congruence.
    rewrite !(setMotorSpeed_frame Ble.M2_IN1_PIN Ble.M2_IN2_PIN 0 _ Ble.M1_IN2_PIN)
      by congruence.
    auto.
Qed.

(** C5, counterexample: the BLE sketch drives motor A in reverse
    ([M1:-100]) and then forward ([M1:100]). The write of the forward pin
    comes first: at the instant after it, before the reverse pin is cleared,
    both pins of the pair carry duty 100. *)
Lemma channel_pair_counterexample :
  let st := Ble.run [Ble.Write "M1:-100"; Ble.Write "M1:100"] Ble.setup in
  let pins := ble_replay (firstn 16 (Ble.trace st)) in
  Ble.reachable st /\
  Ble.ledc st = ble_replay (Ble.trace st) /\
  nth_error (Ble.trace st) 15 = Some (Ble.LedcWrite Ble.M1_IN1_PIN 100) /\
  pins !! Ble.M1_IN1_PIN = Some 100 /\ pins !! Ble.M1_IN2_PIN = Some 100.
Proof.
  intros st pins.
  assert (Ble.reachable st) as Hreach.
  { apply (Ble.reachable_step (Ble.Write "M1:100")).
    apply (Ble.reachable_step (Ble.Write "M1:-100")).
    apply Ble.reachable_setup. }
  split; [exact Hreach|].
  split; [exact (reachable_synced st Hreach)|].
  vm_compute. auto.
Qed.

(** C5, amended: the channel-pair policy holds for the duties the
    WebSocket sketch writes for a joystick record in MANUAL mode and for
    every speed handed to [setMotorSpeed] in the BLE sketch (after its
    [constrain]); in both sketches the forward channel of a pair is written
    first and the reverse channel second, so that when a motor goes from
    reverse to forward both channels of its pair carry nonzero duty right
    after the first write; and in no state either sketch can reach, once a
    pair write is complete, are both channels of a pair nonzero. *)
Theorem channel_pair_policy :
  (forall deserializeJson st payload doc millis,
     Car.currentMode st = Car.MANUAL ->
     String.length (c_str payload) <> 1%nat ->
     deserializeJson (c_str payload) = inr doc ->
     let st' := Car.webSocketEvent deserializeJson (Car.WStype_TEXT payload) millis st in
     let dA := Car.targetA st' in
     let dB := Car.targetB st' in
     (channel_policy dA
        (Car.ledcRead st' Car.CH_A_FWD) (Car.ledcRead st' Car.CH_A_REV) /\
      channel_policy dB
        (Car.ledcRead st' Car.CH_B_RIGHT) (Car.ledcRead st' Car.CH_B_LEFT)) /\
     (exists status,
        Car.trace st' =
          Car.trace st ++
            [Car.DigitalWrite_stby HIGH;
             Car.LedcWrite Car.CH_A_FWD (Car.ledcRead st' Car.CH_A_FWD);
             Car.LedcWrite Car.CH_A_REV (Car.ledcRead st' Car.CH_A_REV);
             Car.LedcWrite Car.CH_B_RIGHT (Car.ledcRead st' Car.CH_B_RIGHT);
             Car.LedcWrite Car.CH_B_LEFT (Car.ledcRead st' Car.CH_B_LEFT);
             status]) /\
     (0 < dA -> Car.ledcRead st Car.CH_A_REV <> 0 ->
      both_driven
        (fold_left car_apply
           [Car.DigitalWrite_stby HIGH;
            Car.LedcWrite Car.CH_A_FWD (Car.ledcRead st' Car.CH_A_FWD)]
           (Car.ledc st))
        Car.CH_A_FWD Car.CH_A_REV) /\
     (0 < dB -> Car.ledcRead st Car.CH_B_LEFT <> 0 ->
      both_driven
        (fold_left car_apply
           [Car.DigitalWrite_stby HIGH;
            Car.LedcWrite Car.CH_A_FWD (Car.ledcRead st' Car.CH_A_FWD);
            Car.LedcWrite Car.CH_A_REV (Car.ledcRead st' Car.CH_A_REV);
            Car.LedcWrite Car.CH_B_RIGHT (Car.ledcRead st' Car.CH_B_RIGHT)]
           (Car.ledc st))
        Car.CH_B_RIGHT Car.CH_B_LEFT)) /\
  (forall in1_pin in2_pin speed st,
     in1_pin <> in2_pin ->
     let d := constrain speed (-255) 255 in
     let st' := Ble.setMotorSpeed in1_pin in2_pin speed st in
     channel_policy d (Ble.ledcRead st' in1_pin) (Ble.ledcRead st' in2_pin) /\
     Ble.trace st' =
       Ble.trace st ++ [Ble.LedcWrite in1_pin (Ble.ledcRead st' in1_pin);
                        Ble.LedcWrite in2_pin (Ble.ledcRead st' in2_pin)] /\
     (0 < d -> Ble.ledcRead st in2_pin <> 0 ->
      both_driven
        (ble_apply (Ble.ledc st) (Ble.LedcWrite in1_pin (Ble.ledcRead st' in1_pin)))
        in1_pin in2_pin)) /\
  (forall deserializeJson st,
     Car.reachable deserializeJson st ->
     ~ (Car.ledcRead st Car.CH_A_FWD <> 0 /\ Car.ledcRead st Car.CH_A_REV <> 0) /\
     ~ (Car.ledcRead st Car.CH_B_RIGHT <> 0 /\ Car.ledcRead st Car.CH_B_LEFT <> 0)) /\
  (forall st,
     Ble.reachable st ->
     ~ (Ble.ledcRead st Ble.M1_IN1_PIN <> 0 /\ Ble.ledcRead st Ble.M1_IN2_PIN <> 0) /\
     ~ (Ble.ledcRead st Ble.M2_IN1_PIN <> 0 /\ Ble.ledcRead st Ble.M2_IN2_PIN <> 0)).
Proof.
  split; [|split; [|split]].
  - intros deserializeJson st payload doc millis Hmode Hlen Hdoc st' dA dB.
    assert (consistent st') as (_ & _ & HA & HB & _).
    { subst st'. rewrite (webSocketEvent_json _ _ _ _ _ Hlen Hdoc), Hmode.
      match goal with |- consistent (Car.broadcastStatus _ _ ?s) =>
        apply consistent_ext with (st := s); try reflexivity end.
      apply consistent_driveManual. }
    fold dA in HA. fold dB in HB.
    split; [split; assumption|].
    destruct (manual_record_trace deserializeJson payload doc millis st Hmode Hlen Hdoc)
      as [status Htrace].
    fold st' in Htrace.
    split; [exists status; exact Htrace|].
    destruct channels_distinct as (Hab & Hac & Had & Hbc & Hbd & Hcd).
    split.
    + intros Hpos Hrev. destruct HA as (HA & _ & _). destruct (HA Hpos) as [-> _].
      unfold both_driven, duty_of. cbn [fold_left car_apply].
      rewrite lookup_insert_eq, lookup_insert_ne by exact Hab.
      split; [cbn; lia|exact Hrev].
    + intros Hpos Hrev. destruct HB as (HB & _ & _). destruct (HB Hpos) as [-> _].
      unfold both_driven, duty_of. cbn [fold_left car_apply].
      rewrite lookup_insert_eq, !lookup_insert_ne by congruence.
      split; [cbn; lia|exact Hrev].
  - intros in1_pin in2_pin speed st Hne d st'.
    assert (channel_policy d (Ble.ledcRead st' in1_pin) (Ble.ledcRead st' in2_pin))
      as Hpolicy by now apply setMotorSpeed_policy.
    split; [exact Hpolicy|]. split.
    + subst st'. rewrite setMotorSpeed_unfold. fold d.
      rewrite ble_ledcRead_written, ble_ledcRead_other, ble_ledcRead_written
        by congruence.
      reflexivity.
    + intros Hpos Hrev. destruct Hpolicy as (Hp & _ & _). destruct (Hp Hpos) as [-> _].
      unfold both_driven, duty_of. cbn [ble_apply].
      rewrite lookup_insert_eq, lookup_insert_ne by exact Hne.
      split; [cbn; lia|exact Hrev].
  - intros deserializeJson st Hreach.
    destruct (reachable_consistent _ _ Hreach) as (_ & _ & HA & HB & _).
    split; eapply channel_policy_exclusive; eassumption.
  - intros st Hreach. exact (reachable_ble_exclusive st Hreach).
Qed.

(** The policy and the exclusion after the write [M1:150,M2:-100], and
    the two channels of motor B after the first write of a forward speed
    of 80 that follows it. *)
Lemma channel_pair_policy_witness :
  let st := Ble.onWrite "M1:150,M2:-100" Ble.setup in
  Ble.reachable st /\
  Ble.ledcRead st Ble.M1_IN1_PIN = 150 /\ Ble.ledcRead st Ble.M1_IN2_PIN = 0 /\
  Ble.ledcRead st Ble.M2_IN1_PIN = 0 /\ Ble.ledcRead st Ble.M2_IN2_PIN = 100 /\
  ~ (Ble.ledcRead st Ble.M1_IN1_PIN <> 0 /\ Ble.ledcRead st Ble.M1_IN2_PIN <> 0) /\
  both_driven (ble_apply (Ble.ledc st) (Ble.LedcWrite Ble.M2_IN1_PIN 80))
    Ble.M2_IN1_PIN Ble.M2_IN2_PIN.
Proof.
  intros st.
  assert (Ble.reachable st) as Hreach
    by apply (Ble.reachable_step (Ble.Write "M1:150,M2:-100")), Ble.reachable_setup.
  destruct channel_pair_policy as (_ & Hset & _ & Hble).
  split; [exact Hreach|].
  repeat (split; [vm_compute; reflexivity|]).
  split; [exact (proj1 (Hble st Hreach))|].
  destruct (Hset Ble.M2_IN1_PIN Ble.M2_IN2_PIN 80 st ltac:(discriminate))
    as (_ & _ & Hboth).
  apply Hboth; vm_compute; [reflexivity|discriminate].
Defined.

(** C7, counterexample: the empty write has neither token, and yet no
    motor is driven at 0: [onWrite] skips its whole body for a value of
    length 0, so motors running at 100 keep running. *)
Lemma legacy_parse_counterexample :
  let st := Ble.onWrite "M1:100,M2:100" Ble.setup in
  let st' := Ble.onWrite "" st in
  Ble.find "" "M1:" 0 = None /\ Ble.find "" "M2:" 0 = None /\
  Ble.ledcRead st' Ble.M1_IN1_PIN = 100 /\ Ble.ledcRead st' Ble.M2_IN1_PIN = 100 /\
  st' = st.
Proof. vm_compute. repeat split; reflexivity. Qed.

(** C7, amended: in a legacy message that is not empty each motor is
    parsed on its own: a motor whose token is absent, or present with an integer [stoi] rejects, is
    driven at 0, and a motor whose token carries a valid integer [v] is
    driven at [v] clamped to [-255, 255], whatever happened to the other
    motor; [M1:150] drives motor A at 150 and motor B at 0, and
    [M1:abc,M2:-50] drives motor A at 0 and motor B at -50; the empty
    write changes nothing. *)
Theorem legacy_parse :
  (forall rxValue st,
     (0 < String.length rxValue)%nat ->
     let st' := Ble.onWrite rxValue st in
     let A_fwd := Ble.ledcRead st' Ble.M1_IN1_PIN in
     let A_rev := Ble.ledcRead st' Ble.M1_IN2_PIN in
     let B_fwd := Ble.ledcRead st' Ble.M2_IN1_PIN in
     let B_rev := Ble.ledcRead st' Ble.M2_IN2_PIN in
     (Ble.find rxValue "M1:" 0 = None -> A_fwd = 0 /\ A_rev = 0) /\
     (Ble.find rxValue "M2:" 0 = None -> B_fwd = 0 /\ B_rev = 0) /\
     (forall m1_pos,
        Ble.find rxValue "M1:" 0 = Some m1_pos ->
        Ble.stoi (Ble.m1_str rxValue m1_pos) = None ->
        A_fwd = 0 /\ A_rev = 0) /\
     (forall m2_pos,
        Ble.find rxValue "M2:" 0 = Some m2_pos ->
        Ble.stoi (Ble.m2_str rxValue m2_pos) = None ->
        B_fwd = 0 /\ B_rev = 0) /\
     (forall m1_pos v,
        Ble.find rxValue "M1:" 0 = Some m1_pos ->
        Ble.stoi (Ble.m1_str rxValue m1_pos) = Some v ->
        channel_policy (clamp v (-255) 255) A_fwd A_rev) /\
     (forall m2_pos v,
        Ble.find rxValue "M2:" 0 = Some m2_pos ->
        Ble.stoi (Ble.m2_str rxValue m2_pos) = Some v ->
        channel_policy (clamp v (-255) 255) B_fwd B_rev)) /\
  (forall st,
     let st' := Ble.onWrite "M1:150" st in
     Ble.ledcRead st' Ble.M1_IN1_PIN = 150 /\ Ble.ledcRead st' Ble.M1_IN2_PIN = 0 /\
     Ble.ledcRead st' Ble.M2_IN1_PIN = 0 /\ Ble.ledcRead st' Ble.M2_IN2_PIN = 0) /\
  (forall st,
     let st' := Ble.onWrite "M1:abc,M2:-50" st in
     Ble.ledcRead st' Ble.M1_IN1_PIN = 0 /\ Ble.ledcRead st' Ble.M1_IN2_PIN = 0 /\
     Ble.ledcRead st' Ble.M2_IN1_PIN = 0 /\ Ble.ledcRead st' Ble.M2_IN2_PIN = 50) /\
  (forall st, Ble.onWrite "" st = st).
Proof.
  split; [|split; [|split]].
  - intros rxValue st Hlen st' A_fwd A_rev B_fwd B_rev.
    destruct (onWrite_reads rxValue st Hlen) as (HA1 & HA2 & HB1 & HB2).
    fold st' in HA1, HA2, HB1, HB2. subst A_fwd A_rev B_fwd B_rev.
    rewrite HA1, HA2, HB1, HB2. unfold m1_speed_of, m2_speed_of.
    split; [|split; [|split; [|split; [|split]]]].
    + intros Hfind. rewrite Hfind. split; reflexivity.
    + intros Hfind. rewrite Hfind. split; reflexivity.
    + intros m1_pos Hfind Hstoi. rewrite Hfind, Hstoi. split; reflexivity.
    + intros m2_pos Hfind Hstoi. rewrite Hfind, Hstoi. split; reflexivity.
    + intros m1_pos v Hfind Hstoi. rewrite Hfind, Hstoi. cbn [default from_option id].
      rewrite <- constrain_clamp by lia.
      apply policy_of_duties, constrain_bounds. lia.
    + intros m2_pos v Hfind Hstoi. rewrite Hfind, Hstoi. cbn [default from_option id].
      rewrite <- constrain_clamp by lia.
      apply policy_of_duties, constrain_bounds. lia.
  - intros st st'.
    exact (onWrite_reads "M1:150" st ltac:(vm_compute; lia)).
  - intros st st'.
    exact (onWrite_reads "M1:abc,M2:-50" st ltac:(vm_compute; lia)).
  - intros st. reflexivity.
Qed.

(** The general part at [M1:abc,M2:-50]: the token of motor A is
    rejected by [stoi], the token of motor B carries -50. *)
Lemma legacy_parse_witness :
  let st' := Ble.onWrite "M1:abc,M2:-50" Ble.setup in
  Ble.find "M1:abc,M2:-50" "M1:" 0 = Some 0%nat /\
  Ble.stoi (Ble.m1_str "M1:abc,M2:-50" 0) = None /\
  Ble.find "M1:abc,M2:-50" "M2:" 0 = Some 7%nat /\
  Ble.stoi (Ble.m2_str "M1:abc,M2:-50" 7) = Some (-50) /\
  (Ble.ledcRead st' Ble.M1_IN1_PIN = 0 /\ Ble.ledcRead st' Ble.M1_IN2_PIN = 0) /\
  channel_policy (clamp (-50) (-255) 255)
    (Ble.ledcRead st' Ble.M2_IN1_PIN) (Ble.ledcRead st' Ble.M2_IN2_PIN).
Proof.
  intros st'.
  destruct legacy_parse as (Hgeneral & _ & _ & _).
  destruct (Hgeneral "M1:abc,M2:-50" Ble.setup ltac:(vm_compute; lia))
    as (_ & _ & Hbad & _ & _ & Hgood).
  repeat (split; [reflexivity|]).
  split.
  - exact (Hbad 0%nat eq_refl eq_refl).
  - exact (Hgood 7%nat (-50) eq_refl eq_refl).
Defined.

(** C10: in the BLE sketch a non-empty message with neither [M1:] nor
    [M2:] in it is not ignored: the defaults of 0 are applied, the four pins
    are written with duty 0, and both motors stop. *)
Theorem tokenless_message_stops (rxValue : string) (st : Ble.state) :
  (0 < String.length rxValue)%nat ->
  Ble.find rxValue "M1:" 0 = None ->
  Ble.find rxValue "M2:" 0 = None ->
  let st' := Ble.onWrite rxValue st in
  Ble.trace st' =
    Ble.trace st ++
      [Ble.SerialPrint "Received Value: "; Ble.SerialPrint (c_str rxValue);
       Ble.LedcWrite Ble.M1_IN1_PIN 0; Ble.LedcWrite Ble.M1_IN2_PIN 0;
       Ble.LedcWrite Ble.M2_IN1_PIN 0; Ble.LedcWrite Ble.M2_IN2_PIN 0] /\
  Ble.ledcRead st' Ble.M1_IN1_PIN = 0 /\ Ble.ledcRead st' Ble.M1_IN2_PIN = 0 /\
  Ble.ledcRead st' Ble.M2_IN1_PIN = 0 /\ Ble.ledcRead st' Ble.M2_IN2_PIN = 0.
Proof.
  intros Hlen H1 H2 st'.
  destruct (onWrite_reads rxValue st Hlen) as (HA1 & HA2 & HB1 & HB2).
  fold st' in HA1, HA2, HB1, HB2.
  unfold m1_speed_of, m2_speed_of in *. rewrite H1 in HA1, HA2. rewrite H2 in HB1, HB2.
  split; [|auto].
  subst st'. rewrite (onWrite_no_tokens rxValue st Hlen H1 H2). reflexivity.
Qed.

(** The messages [S] and [stop] while both motors run. *)
Lemma tokenless_message_stops_witness :
  let st := Ble.onWrite "M1:100,M2:100" Ble.setup in
  Ble.ledcRead st Ble.M1_IN1_PIN = 100 /\ Ble.ledcRead st Ble.M2_IN1_PIN = 100 /\
  Ble.ledcRead (Ble.onWrite "S" st) Ble.M1_IN1_PIN = 0 /\
  Ble.ledcRead (Ble.onWrite "S" st) Ble.M2_IN1_PIN = 0 /\
  Ble.ledcRead (Ble.onWrite "stop" st) Ble.M1_IN1_PIN = 0 /\
  Ble.ledcRead (Ble.onWrite "stop" st) Ble.M2_IN1_PIN = 0.
Proof.
  intros st.
  destruct (tokenless_message_stops "S" st ltac:(vm_compute; lia) eq_refl eq_refl)
    as (_ & HS1 & _ & HS2 & _).
  destruct (tokenless_message_stops "stop" st ltac:(vm_compute; lia) eq_refl eq_refl)
    as (_ & HT1 & _ & HT2 & _).
  split; [vm_compute; reflexivity|].
  split; [vm_compute; reflexivity|].
  auto.
Defined.

(** ** Further properties of the WebSocket sketch *)

(** Read a channel of a state whose map is a stack of writes. *)
Ltac car_channels :=
  destruct channels_distinct as (? & ? & ? & ? & ? & ?);
  repeat first
    [ rewrite ledcRead_written
    | rewrite ledcRead_other by congruence ].

Section CarMore.
Import Car.
Variable deserializeJson : string -> string + JsonDocument.

Lemma single_char (s : string) :
  String.length s = 1%nat -> exists c, s = String c EmptyString.
Proof.
  destruct s as [|c [|c' s]]; cbn [String.length]; try discriminate.
  intros _. now exists c.
Qed.

(** The single-character branch, with the three commands spelt out. *)
Lemma webSocketEvent_char payload c millis st :
  c_str payload = String c EmptyString ->
  webSocketEvent deserializeJson (WStype_TEXT payload) millis st =
  set_lastCommandTime millis
    (if (c =? "A")%char then sendLogMessage "Mode Switched: AUTO" (set_currentMode AUTO st)
     else if (c =? "M")%char then sendLogMessage "Mode Switched: MANUAL" (set_currentMode MANUAL st)
     else if (c =? "S")%char then emergencyStopNow st
     else st).
Proof.
  intros Hc. unfold webSocketEvent. rewrite Hc.
  cbn [String.length Nat.eqb String.get default from_option id].
  unfold seq at 1.
  destruct (c =? "A")%char; [reflexivity|].
  destruct (c =? "M")%char; [reflexivity|].
  destruct (c =? "S")%char; reflexivity.
Qed.

(** A text whose C string is not one character long, in AUTO mode: a
    status frame or an error line, nothing else. *)
Lemma auto_long_text payload millis st :
  currentMode st = AUTO ->
  String.length (c_str payload) <> 1%nat ->
  exists e,
    webSocketEvent deserializeJson (WStype_TEXT payload) millis st =
    mkState (targetA st) (targetB st) (lastCommandTime st) (currentMode st)
      (motor_stby st) (ledc st) (lastLogMillis st) (trace st ++ [e]).
Proof.
  intros Hmode Hlen. destruct (deserializeJson (c_str payload)) as [err|doc] eqn:Hdoc.
  - rewrite (webSocketEvent_error _ _ _ _ _ Hlen Hdoc). eexists. reflexivity.
  - rewrite (webSocketEvent_json _ _ _ _ _ Hlen Hdoc).
    unfold broadcastStatus, emit. rewrite !Hmode. eexists. reflexivity.
Qed.

Lemma policy_range d fwd rev :
  -255 <= d <= 255 -> channel_policy d fwd rev ->
  0 <= fwd <= 255 /\ 0 <= rev <= 255.
Proof.
  intros Hd (Hpos & Hneg & Hzero).
  destruct (Z.lt_trichotomy d 0) as [H|[H|H]].
  - destruct (Hneg H). lia.
  - destruct (Hzero H). lia.
  - destruct (Hpos H). lia.
Qed.

(** What the building blocks leave alone. *)
Lemma mode_driveManual steer throttle millis st :
  currentMode (driveManual steer throttle millis st) = currentMode st.
Proof. now rewrite driveManual_unfold. Qed.

Lemma mode_emergencyStopNow st : currentMode (emergencyStopNow st) = currentMode st.
Proof. now rewrite emergencyStopNow_unfold. Qed.

Lemma time_emergencyStopNow st :
  lastCommandTime (emergencyStopNow st) = lastCommandTime st.
Proof. now rewrite emergencyStopNow_unfold. Qed.

Lemma mode_time_loop millis st :
  currentMode (loop millis st) = currentMode st /\
  lastCommandTime (loop millis st) = lastCommandTime st.
Proof.
  unfold loop, seq, heartbeat.
  destruct (commandTimeout_cases millis st) as [-> | ->];
    destruct (5000 <? _); split; reflexivity.
Qed.

Lemma mode_time_long_text payload millis st :
  String.length (c_str payload) <> 1%nat ->
  let st' := webSocketEvent deserializeJson (WStype_TEXT payload) millis st in
  currentMode st' = currentMode st /\
  lastCommandTime st' =
    match deserializeJson (c_str payload), currentMode st with
    | inr _, MANUAL => millis
    | _, _ => lastCommandTime st
    end.
Proof.
  intros Hlen st'. subst st'.
  destruct (deserializeJson (c_str payload)) as [err|doc] eqn:Hdoc.
  - rewrite (webSocketEvent_error _ _ _ _ _ Hlen Hdoc). split; reflexivity.
  - rewrite (webSocketEvent_json _ _ _ _ _ Hlen Hdoc).
    destruct (currentMode st) eqn:Hmode.
    + split; [exact Hmode | reflexivity].
    + change (currentMode (broadcastStatus ?t ?s ?x)) with (currentMode x).
      change (lastCommandTime (broadcastStatus ?t ?s ?x)) with (lastCommandTime x).
      rewrite driveManual_unfold. split; [exact Hmode | reflexivity].
Qed.

Lemma outputs_driveManual steer throttle millis st :
  car_outputs (driveManual steer throttle millis st) =
  let dA := constrain (int_div (int_mul throttle MAX_DUTY) 100) (- MAX_DUTY) MAX_DUTY in
  let dB := constrain (int_div (int_mul steer MAX_DUTY) 100) (- MAX_DUTY) MAX_DUTY in
  (dA, dB, HIGH, (fwd_duty dA, rev_duty dA, rev_duty dB, fwd_duty dB)).
Proof.
  rewrite driveManual_unfold. unfold car_outputs.
  cbn [targetA targetB motor_stby]. car_channels. reflexivity.
Qed.

Lemma outputs_emergencyStopNow st :
  car_outputs (emergencyStopNow st) = (0, 0, LOW, (0, 0, 0, 0)).
Proof.
  rewrite emergencyStopNow_unfold. unfold car_outputs.
  cbn [targetA targetB motor_stby]. car_channels. reflexivity.
Qed.

End CarMore.

Section CarExtras.
Import Car.

(** X1: whatever the messages were, also those whose scaling overflows,
    the stored duties stay within [-255, 255], each channel pair holds exactly
    the split of its stored duty, and every channel duty is within
    [0, 255]. *)
Theorem outputs_stay_in_range
    (deserializeJson : string -> string + JsonDocument) (st : state) :
  reachable deserializeJson st ->
  -255 <= targetA st <= 255 /\ -255 <= targetB st <= 255 /\
  channel_policy (targetA st) (ledcRead st CH_A_FWD) (ledcRead st CH_A_REV) /\
  channel_policy (targetB st) (ledcRead st CH_B_RIGHT) (ledcRead st CH_B_LEFT) /\
  0 <= ledcRead st CH_A_FWD <= 255 /\ 0 <= ledcRead st CH_A_REV <= 255 /\
  0 <= ledcRead st CH_B_LEFT <= 255 /\ 0 <= ledcRead st CH_B_RIGHT <= 255.
Proof.
  intros Hreach.
  destruct (reachable_consistent _ _ Hreach) as (HA & HB & HpA & HpB & _).
  destruct (policy_range _ _ _ HA HpA). destruct (policy_range _ _ _ HB HpB).
  auto 10.
Qed.

(** The bounds after a record whose scaling overflows. *)
Lemma outputs_stay_in_range_witness :
  let st := step sample_deserializeJson
              (WebSocket (WStype_TEXT (axis_payload "0" "8421505")) 10) setup in
  reachable sample_deserializeJson st /\ -255 <= targetA st <= 255.
Proof.
  intros st.
  assert (reachable sample_deserializeJson st) as Hreach
    by apply reachable_step, reachable_setup.
  split; [exact Hreach|].
  exact (proj1 (outputs_stay_in_range sample_deserializeJson st Hreach)).
Defined.

(** X2: the drive mode changes only on a text message whose C string,
    the bytes before the first NUL, is [A] or [M]: any other event, the
    emergency stop and the loop included, leaves it as it was. *)
Theorem mode_changes_only_by_command
    (deserializeJson : string -> string + JsonDocument) (ev : event) (st : state) :
  currentMode (step deserializeJson ev st) <> currentMode st ->
  exists payload millis,
    ev = WebSocket (WStype_TEXT payload) millis /\
    ((c_str payload = "A"%string /\
      currentMode (step deserializeJson ev st) = AUTO) \/
     (c_str payload = "M"%string /\
      currentMode (step deserializeJson ev st) = MANUAL)).
Proof.
  intros Hchange. destruct ev as [type millis|millis]; unfold step in *.
  - destruct type as [ip| |payload|].
    + now contradiction Hchange.
    + contradiction Hchange. unfold webSocketEvent, seq.
      now rewrite mode_emergencyStopNow.
    + destruct (Nat.eq_dec (String.length (c_str payload)) 1%nat) as [Hone|Hlong].
      * destruct (single_char (c_str payload) Hone) as [c Hc].
        rewrite (webSocketEvent_char deserializeJson payload c millis st Hc) in Hchange.
        rewrite (webSocketEvent_char deserializeJson payload c millis st Hc).
        change (currentMode (set_lastCommandTime ?t ?x)) with (currentMode x) in Hchange.
        change (currentMode (set_lastCommandTime ?t ?x)) with (currentMode x).
        exists payload, millis. split; [reflexivity|].
        destruct (Ascii.eqb_spec c "A") as [HA|_];
          [left; split; [now rewrite Hc, HA|reflexivity]|].
        destruct (Ascii.eqb_spec c "M") as [HM|_];
          [right; split; [now rewrite Hc, HM|reflexivity]|].
        contradiction Hchange.
        destruct (c =? "S")%char; [apply mode_emergencyStopNow|reflexivity].
      * contradiction Hchange.
        exact (proj1 (mode_time_long_text deserializeJson payload millis st Hlong)).
    + now contradiction Hchange.
  - contradiction Hchange. exact (proj1 (mode_time_loop millis st)).
Qed.

(** The switch to AUTO, by [A] followed by a NUL and more. *)
Lemma mode_changes_only_by_command_witness :
  let ev := WebSocket (WStype_TEXT (String "A" (String "000" (String "y" EmptyString)))) 10 in
  currentMode (step sample_deserializeJson ev setup) = AUTO.
Proof.
  intros ev.
  destruct (mode_changes_only_by_command sample_deserializeJson ev setup
              ltac:(vm_compute; discriminate))
    as (payload & millis & Hev & [[_ Hmode] | [Hc Hmode]]).
  - exact Hmode.
  - injection Hev as <- _. discriminate Hc.
Defined.

(** X3: the last-command time is refreshed by every text message whose
    C string, the bytes before the first NUL, is one character long, and by
    every other text message whose C string decodes while the mode is
    MANUAL, and by nothing else: connects, disconnects, rejected messages,
    records received in AUTO mode and loop iterations leave it as it was. *)
Theorem keep_alive_events
    (deserializeJson : string -> string + JsonDocument) (ev : event) (st : state) :
  lastCommandTime (step deserializeJson ev st) =
  match ev with
  | WebSocket (WStype_TEXT payload) millis =>
      if (String.length (c_str payload) =? 1)%nat then millis
      else match deserializeJson (c_str payload), currentMode st with
           | inr _, MANUAL => millis
           | _, _ => lastCommandTime st
           end
  | _ => lastCommandTime st
  end.
Proof.
  destruct ev as [type millis|millis]; unfold step.
  - destruct type as [ip| |payload|];
      [reflexivity
      |unfold webSocketEvent, seq; now rewrite time_emergencyStopNow
      | |reflexivity].
    destruct (Nat.eqb_spec (String.length (c_str payload)) 1%nat) as [Hone|Hlong].
    + destruct (single_char (c_str payload) Hone) as [c Hc].
      now rewrite (webSocketEvent_char deserializeJson payload c millis st Hc).
    + exact (proj2 (mode_time_long_text deserializeJson payload millis st Hlong)).
  - exact (proj2 (mode_time_loop millis st)).
Qed.

(** X4: a decodable record processed in MANUAL mode overwrites the
    outputs: the stored duties, the standby line and the four channels
    afterwards depend on the record alone, not on the state before, so a
    record restarts the motors right after any stop. *)
Theorem manual_record_overwrites
    (deserializeJson : string -> string + JsonDocument) (st1 st2 : state)
    (payload : string) (doc : JsonDocument) (millis1 millis2 : Z) :
  currentMode st1 = MANUAL -> currentMode st2 = MANUAL ->
  String.length (c_str payload) <> 1%nat ->
  deserializeJson (c_str payload) = inr doc ->
  car_outputs (webSocketEvent deserializeJson (WStype_TEXT payload) millis1 st1) =
  car_outputs (webSocketEvent deserializeJson (WStype_TEXT payload) millis2 st2).
Proof.
  intros Hm1 Hm2 Hlen Hdoc.
  rewrite !(webSocketEvent_json _ _ _ _ _ Hlen Hdoc), Hm1, Hm2.
  change (car_outputs (broadcastStatus ?t ?s ?x)) with (car_outputs x).
  now rewrite !outputs_driveManual.
Qed.

(** The same record right after [setup] and right after an emergency
    stop. *)
Lemma manual_record_overwrites_witness :
  let st := webSocketEvent sample_deserializeJson (WStype_TEXT "S") 5 setup in
  car_outputs (webSocketEvent sample_deserializeJson
                 (WStype_TEXT (axis_payload "50" "50")) 10 setup) =
  car_outputs (webSocketEvent sample_deserializeJson
                 (WStype_TEXT (axis_payload "50" "50")) 20 st).
Proof.
  intros st.
  exact (manual_record_overwrites sample_deserializeJson setup st
           (axis_payload "50" "50") {[ "steer"%string := 50; "throttle"%string := 50 ]}
           10 20 eq_refl eq_refl ltac:(vm_compute; discriminate) eq_refl).
Defined.

End CarExtras.

Section CarMore2.
Import Car.
Variable deserializeJson : string -> string + JsonDocument.

Lemma auto_stream_inert evs st :
  currentMode st = AUTO ->
  Forall is_long_text evs ->
  let st' := run deserializeJson evs st in
  currentMode st' = AUTO /\
  targetA st' = targetA st /\ targetB st' = targetB st /\
  lastCommandTime st' = lastCommandTime st /\
  motor_stby st' = motor_stby st /\ ledc st' = ledc st.
Proof.
  revert st. induction evs as [|ev evs IH]; intros st Hmode Hall.
  - unfold run. cbn [fold_left]. repeat split; auto.
  - inversion Hall as [|ev' evs' Hev Hevs]; subst.
    destruct ev as [[ip| |payload|] millis|millis]; try contradiction.
    cbn [is_long_text] in Hev.
    destruct (auto_long_text deserializeJson payload millis st Hmode Hev) as [e He].
    unfold run. cbn [fold_left step]. rewrite He.
    match goal with |- context [fold_left _ evs ?s] =>
      destruct (IH s Hmode Hevs) as (H1 & H2 & H3 & H4 & H5 & H6) end.
    unfold run in H1, H2, H3, H4, H5, H6.
    rewrite H1, H2, H3, H4, H5, H6. repeat split; reflexivity.
Qed.

Lemma outputs_commandTimeout_fires millis st :
  COMMAND_TIMEOUT < ulong_sub millis (lastCommandTime st) ->
  targetA st <> 0 \/ targetB st <> 0 ->
  car_outputs (commandTimeout millis st) = (0, 0, LOW, (0, 0, 0, 0)).
Proof.
  intros Hlate Hrun. rewrite commandTimeout_fires by assumption.
  unfold car_outputs. cbn [targetA targetB motor_stby]. car_channels. reflexivity.
Qed.

Lemma outputs_loop millis st :
  car_outputs (loop millis st) = car_outputs (commandTimeout millis st).
Proof.
  unfold loop, seq, heartbeat. destruct (5000 <? _); reflexivity.
Qed.

Lemma outputs_ext st st' :
  targetA st' = targetA st -> targetB st' = targetB st ->
  motor_stby st' = motor_stby st -> ledc st' = ledc st ->
  car_outputs st' = car_outputs st.
Proof. unfold car_outputs, ledcRead. now intros -> -> -> ->. Qed.

Lemma ulong_sub_elapsed last elapsed :
  0 <= elapsed < 4294967296 ->
  ulong_sub ((last + elapsed) mod 4294967296) last = elapsed.
Proof.
  intros He. unfold ulong_sub. rewrite Zminus_mod_idemp_l.
  replace (last + elapsed - last) with elapsed by lia.
  now apply Z.mod_small.
Qed.

(** The scaling of one axis, in the range where the product fits. *)
Lemma scaling_odd x :
  Z.abs x <= 8421504 ->
  constrain (int_div (int_mul (- x) MAX_DUTY) 100) (- MAX_DUTY) MAX_DUTY =
  - constrain (int_div (int_mul x MAX_DUTY) 100) (- MAX_DUTY) MAX_DUTY.
Proof.
  intros Hx. unfold MAX_DUTY.
  rewrite !scale_no_overflow by lia. rewrite !constrain_clamp by lia.
  unfold clamp. Z.to_euclidean_division_equations. lia.
Qed.

Lemma scaling_monotone x y :
  Z.abs x <= 8421504 -> Z.abs y <= 8421504 -> x <= y ->
  constrain (int_div (int_mul x MAX_DUTY) 100) (- MAX_DUTY) MAX_DUTY <=
  constrain (int_div (int_mul y MAX_DUTY) 100) (- MAX_DUTY) MAX_DUTY.
Proof.
  intros Hx Hy Hxy. unfold MAX_DUTY.
  rewrite !scale_no_overflow by lia. rewrite !constrain_clamp by lia.
  unfold clamp. Z.to_euclidean_division_equations. lia.
Qed.

(** The standby line along the trace. *)
Lemma standby_scan_app b tr1 tr2 :
  standby_scan b (tr1 ++ tr2) =
  match standby_scan b tr1 with
  | Some b' => standby_scan b' tr2
  | None => None
  end.
Proof.
  revert b. induction tr1 as [|e tr1 IH]; intros b; [reflexivity|].
  destruct e as [level|ch duty|message|a b' t s m]; cbn [standby_scan app]; auto.
  destruct ((duty =? 0) || b); auto.
Qed.

Lemma scan_ok_quiet st st' e :
  trace st' = trace st ++ [e] -> motor_stby st' = motor_stby st ->
  (forall b, standby_scan b [e] = Some b) ->
  scan_ok st -> scan_ok st'.
Proof.
  unfold scan_ok. intros -> -> He Hst. now rewrite standby_scan_app, Hst, He.
Qed.

Lemma scan_ok_same st st' :
  trace st' = trace st -> motor_stby st' = motor_stby st -> scan_ok st -> scan_ok st'.
Proof. unfold scan_ok. now intros -> ->. Qed.

Lemma scan_ok_emergencyStopNow st : scan_ok st -> scan_ok (emergencyStopNow st).
Proof.
  unfold scan_ok. intros Hst. rewrite emergencyStopNow_unfold.
  cbn [trace motor_stby]. rewrite standby_scan_app, Hst. reflexivity.
Qed.

Lemma scan_ok_driveManual steer throttle millis st :
  scan_ok st -> scan_ok (driveManual steer throttle millis st).
Proof.
  unfold scan_ok. intros Hst. rewrite driveManual_unfold.
  cbn [trace motor_stby]. rewrite standby_scan_app, Hst.
  cbn [standby_scan]. unfold HIGH. rewrite !orb_true_r. reflexivity.
Qed.

Lemma scan_ok_commandTimeout millis st : scan_ok st -> scan_ok (commandTimeout millis st).
Proof.
  intros Hst. destruct (commandTimeout_cases millis st) as [-> | ->]; [exact Hst|].
  unfold scan_ok in *. cbn [trace motor_stby]. rewrite standby_scan_app, Hst. reflexivity.
Qed.

Lemma scan_ok_step ev st : scan_ok st -> scan_ok (step deserializeJson ev st).
Proof.
  intros Hst. destruct ev as [[ip| |payload|] millis|millis]; unfold step.
  - revert Hst. apply scan_ok_quiet with (e := LogMessage
      ("--- WS Client Connected from " ++ ip ++ " ---")); reflexivity.
  - unfold webSocketEvent, seq. apply scan_ok_emergencyStopNow.
    revert Hst. apply scan_ok_quiet with (e := LogMessage "--- WS Client Disconnected ---");
      reflexivity.
  - destruct (Nat.eq_dec (String.length (c_str payload)) 1%nat) as [Hone|Hlong].
    + destruct (single_char (c_str payload) Hone) as [c Hc].
      rewrite (webSocketEvent_char deserializeJson payload c millis st Hc).
      match goal with |- scan_ok (set_lastCommandTime _ ?s) =>
        apply scan_ok_same with (st := s); [reflexivity|reflexivity|] end.
      destruct (c =? "A")%char;
        [revert Hst; apply scan_ok_quiet with (e := LogMessage "Mode Switched: AUTO");
           reflexivity|].
      destruct (c =? "M")%char;
        [revert Hst; apply scan_ok_quiet with (e := LogMessage "Mode Switched: MANUAL");
           reflexivity|].
      destruct (c =? "S")%char; [now apply scan_ok_emergencyStopNow|exact Hst].
    + destruct (deserializeJson (c_str payload)) as [err|doc] eqn:Hdoc.
      * rewrite (webSocketEvent_error _ _ _ _ _ Hlong Hdoc).
        revert Hst. apply scan_ok_quiet with (e := LogMessage
          ("WS Error: JSON parse failed: " ++ err)); reflexivity.
      * rewrite (webSocketEvent_json _ _ _ _ _ Hlong Hdoc).
        match goal with |- scan_ok (broadcastStatus ?t ?s ?x) =>
          apply scan_ok_quiet with (st := x)
            (e := StatusFrame (targetA x) (targetB x) t s (currentMode x));
            [reflexivity|reflexivity|reflexivity|] end.
        destruct (currentMode st); [exact Hst|now apply scan_ok_driveManual].
  - exact Hst.
  - unfold loop, heartbeat, seq.
    destruct (5000 <? _); [|now apply scan_ok_commandTimeout].
    match goal with |- scan_ok (set_lastLogMillis _ (sendLogMessage ?m ?s)) =>
      apply scan_ok_quiet with (st := s) (e := LogMessage m);
        [reflexivity|reflexivity|reflexivity|] end.
    now apply scan_ok_commandTimeout.
Qed.

Lemma outputs_commandTimeout_cases millis st :
  car_outputs (commandTimeout millis st) = car_outputs st \/
  car_outputs (commandTimeout millis st) = (0, 0, LOW, (0, 0, 0, 0)).
Proof.
  destruct (commandTimeout_cases millis st) as [-> | ->]; [now left|right].
  unfold car_outputs. cbn [targetA targetB motor_stby]. car_channels. reflexivity.
Qed.

(** In AUTO mode, as long as no text with a one-character C string
    arrives, the mode and the timer stay and the outputs are kept or
    zeroed. *)
Lemma auto_run_invariant evs outs st :
  currentMode st = AUTO ->
  car_outputs st = outs \/ car_outputs st = (0, 0, LOW, (0, 0, 0, 0)) ->
  Forall not_short_text evs ->
  let st' := run deserializeJson evs st in
  currentMode st' = AUTO /\
  lastCommandTime st' = lastCommandTime st /\
  (car_outputs st' = outs \/ car_outputs st' = (0, 0, LOW, (0, 0, 0, 0))).
Proof.
  revert st. induction evs as [|ev evs IH]; intros st Hmode Houts Hall.
  - unfold run. cbn [fold_left]. auto.
  - inversion Hall as [|ev' evs' Hev Hevs]; subst.
    unfold run. cbn [fold_left].
    assert (currentMode (step deserializeJson ev st) = AUTO /\
            lastCommandTime (step deserializeJson ev st) = lastCommandTime st /\
            (car_outputs (step deserializeJson ev st) = outs \/
             car_outputs (step deserializeJson ev st) = (0, 0, LOW, (0, 0, 0, 0))))
      as (Hm & Ht & Ho).
    { destruct ev as [[ip| |payload|] millis|millis]; unfold step.
      - auto.
      - unfold webSocketEvent, seq.
        rewrite mode_emergencyStopNow, time_emergencyStopNow, outputs_emergencyStopNow.
        auto.
      - cbn [not_short_text] in Hev.
        destruct (auto_long_text deserializeJson payload millis st Hmode Hev) as [e ->].
        auto.
      - auto.
      - destruct (mode_time_loop millis st) as [-> ->]. rewrite outputs_loop.
        split; [exact Hmode|]. split; [reflexivity|].
        destruct (outputs_commandTimeout_cases millis st) as [-> | ->]; auto. }
    destruct (IH _ Hm Ho Hevs) as (H1 & H2 & H3). unfold run in H1, H2, H3.
    rewrite H2, Ht. auto.
Qed.

End CarMore2.

Section CarExtras2.
Import Car.

(** X5: in AUTO mode no stream of text messages whose C strings, the
    bytes before the first NUL, are not one character long, decodable or
    not, reaches the motors or the timer: the outputs, the mode and the
    last-command time after the stream are those before it. *)
Theorem auto_ignores_text_stream
    (deserializeJson : string -> string + JsonDocument)
    (evs : list event) (st : state) :
  currentMode st = AUTO ->
  Forall is_long_text evs ->
  let st' := run deserializeJson evs st in
  car_outputs st' = car_outputs st /\
  currentMode st' = AUTO /\
  lastCommandTime st' = lastCommandTime st.
Proof.
  intros Hmode Hall st'.
  destruct (auto_stream_inert deserializeJson evs st Hmode Hall)
    as (H1 & H2 & H3 & H4 & H5 & H6).
  fold st' in H1, H2, H3, H4, H5, H6.
  split; [now apply outputs_ext|split; assumption].
Qed.

(** Two records and a rejected message in AUTO mode, motors running. *)
Lemma auto_ignores_text_stream_witness :
  let st := run sample_deserializeJson
              [WebSocket (WStype_TEXT (axis_payload "50" "50")) 10;
               WebSocket (WStype_TEXT "A") 20] setup in
  let evs := [WebSocket (WStype_TEXT (axis_payload "100" "0")) 30;
              WebSocket (WStype_TEXT "stop") 40;
              WebSocket (WStype_TEXT (axis_payload "0" "0")) 50] in
  targetA st = 127 /\
  car_outputs (run sample_deserializeJson evs st) = car_outputs st.
Proof.
  intros st evs. split; [vm_compute; reflexivity|].
  apply (auto_ignores_text_stream sample_deserializeJson evs st eq_refl).
  repeat constructor; vm_compute; discriminate.
Defined.

(** X6: the switch to AUTO does not stop the motors, and unless a text
    message with a one-character C string arrives, nothing that happens
    afterwards (other messages, connects, disconnects, loop iterations)
    keeps them running past the timeout: after any such events the outputs
    are still those before [A] or already zero, and a loop iteration more
    than 300 ms after the [A] command leaves them zero. *)
Theorem auto_switch_stops_after_timeout
    (deserializeJson : string -> string + JsonDocument)
    (st : state) (t0 : Z) (evs : list event) (millis : Z) :
  targetA st <> 0 \/ targetB st <> 0 ->
  Forall not_short_text evs ->
  COMMAND_TIMEOUT < ulong_sub millis t0 ->
  let st1 := webSocketEvent deserializeJson (WStype_TEXT "A") t0 st in
  let st2 := run deserializeJson evs st1 in
  let st3 := loop millis st2 in
  car_outputs st1 = car_outputs st /\
  (car_outputs st2 = car_outputs st \/ car_outputs st2 = (0, 0, LOW, (0, 0, 0, 0))) /\
  car_outputs st3 = (0, 0, LOW, (0, 0, 0, 0)).
Proof.
  intros Hrun Hall Hlate st1 st2 st3.
  assert (car_outputs st1 = car_outputs st) as H1 by reflexivity.
  destruct (auto_run_invariant deserializeJson evs (car_outputs st) st1
              eq_refl (or_introl H1) Hall) as (_ & Ht & Ho).
  fold st2 in Ht, Ho.
  split; [exact H1|]. split; [exact Ho|].
  subst st3. rewrite outputs_loop.
  destruct (Z.eq_dec (targetA st2) 0) as [HA|HA];
    [destruct (Z.eq_dec (targetB st2) 0) as [HB|HB]|].
  - rewrite commandTimeout_idle by assumption.
    destruct Ho as [Ho|Ho]; [|exact Ho].
    unfold car_outputs in Ho. injection Ho as HA' HB' _.
    destruct Hrun; congruence.
  - apply outputs_commandTimeout_fires; [rewrite Ht; exact Hlate|now right].
  - apply outputs_commandTimeout_fires; [rewrite Ht; exact Hlate|now left].
Qed.

(** Motors running, [A] at 20 ms, then a record, an early loop
    iteration and a rejected message, and the loop iteration at 321 ms. *)
Lemma auto_switch_stops_after_timeout_witness :
  let st := webSocketEvent sample_deserializeJson
              (WStype_TEXT (axis_payload "50" "50")) 10 setup in
  let st1 := webSocketEvent sample_deserializeJson (WStype_TEXT "A") 20 st in
  let st2 := run sample_deserializeJson
               [WebSocket (WStype_TEXT (axis_payload "100" "0")) 100;
                Loop 150;
                WebSocket (WStype_TEXT "stop") 200] st1 in
  targetA st2 = 127 /\ car_outputs (loop 321 st2) = (0, 0, LOW, (0, 0, 0, 0)).
Proof.
  intros st st1 st2. split; [vm_compute; reflexivity|].
  apply (auto_switch_stops_after_timeout sample_deserializeJson st 20
           [WebSocket (WStype_TEXT (axis_payload "100" "0")) 100;
            Loop 150;
            WebSocket (WStype_TEXT "stop") 200] 321).
  - left. vm_compute. discriminate.
  - repeat constructor; vm_compute; discriminate.
  - vm_compute. reflexivity.
Defined.

(** X7: the timeout is taken on the wrapped difference of two 32-bit
    clock values, so it is exact across the roll-over of [millis()]: with
    [elapsed] ms since the last command the block fires if and only if
    [elapsed] exceeds 300, wherever the counter wrapped in between. *)
Theorem timeout_survives_rollover (st : state) (elapsed : Z) :
  0 <= elapsed < 4294967296 ->
  let millis := (lastCommandTime st + elapsed) mod 4294967296 in
  (elapsed <= COMMAND_TIMEOUT -> commandTimeout millis st = st) /\
  (COMMAND_TIMEOUT < elapsed ->
   targetA st <> 0 \/ targetB st <> 0 ->
   car_outputs (commandTimeout millis st) = (0, 0, LOW, (0, 0, 0, 0))).
Proof.
  intros He millis.
  assert (ulong_sub millis (lastCommandTime st) = elapsed) as Hsub
    by now apply ulong_sub_elapsed.
  split.
  - intros Hearly. unfold commandTimeout. rewrite Hsub.
    apply Z.ltb_ge in Hearly. now rewrite Hearly.
  - intros Hlate Hrun. apply outputs_commandTimeout_fires; [now rewrite Hsub|exact Hrun].
Qed.

(** A command 50 ms before the counter wraps, checked 200 and 350 ms
    after it. *)
Lemma timeout_survives_rollover_witness :
  let st := webSocketEvent sample_deserializeJson
              (WStype_TEXT (axis_payload "50" "50")) 4294967246 setup in
  commandTimeout 150 st = st /\
  car_outputs (commandTimeout 300 st) = (0, 0, LOW, (0, 0, 0, 0)).
Proof.
  intros st.
  destruct (timeout_survives_rollover st 200 ltac:(lia)) as [Hearly _].
  destruct (timeout_survives_rollover st 350 ltac:(lia)) as [_ Hlate].
  split.
  - apply Hearly. vm_compute. discriminate.
  - apply Hlate; [vm_compute; reflexivity | left; vm_compute; discriminate].
Defined.

(** X8: an emergency stop is final until the next command: it leaves
    both duties and all four channels at 0 with the standby line low from
    any state, a second stop changes none of them, and the timeout block
    then does nothing, whatever the time. *)
Theorem stop_is_final (st : state) (millis : Z) :
  car_outputs (emergencyStopNow st) = (0, 0, LOW, (0, 0, 0, 0)) /\
  car_outputs (emergencyStopNow (emergencyStopNow st)) = car_outputs (emergencyStopNow st) /\
  commandTimeout millis (emergencyStopNow st) = emergencyStopNow st.
Proof.
  split; [apply outputs_emergencyStopNow|split].
  - now rewrite !outputs_emergencyStopNow.
  - apply commandTimeout_idle; now rewrite emergencyStopNow_unfold.
Qed.

(** X9: after every decodable message, one whose C string is not one
    character long and is accepted by the decoder, the last effect is
    a status frame that carries the duties and the mode of the resulting
    state together with the raw [throttle] and [steer] of the record: the
    fresh duties in MANUAL mode, the unchanged ones in AUTO mode. *)
Theorem status_frame_reports_state
    (deserializeJson : string -> string + JsonDocument) (st : state)
    (payload : string) (doc : JsonDocument) (millis : Z) :
  String.length (c_str payload) <> 1%nat ->
  deserializeJson (c_str payload) = inr doc ->
  let st' := webSocketEvent deserializeJson (WStype_TEXT payload) millis st in
  exists before,
    trace st' =
    before ++ [StatusFrame (targetA st') (targetB st')
                 (member_or doc "throttle" 0) (member_or doc "steer" 0)
                 (currentMode st')] /\
    exists middle, before = trace st ++ middle.
Proof.
  intros Hlen Hdoc st'. subst st'.
  rewrite (webSocketEvent_json _ _ _ _ _ Hlen Hdoc).
  destruct (currentMode st) eqn:Hmode.
  - exists (trace st). split; [unfold broadcastStatus, emit; now rewrite Hmode|].
    exists []. now rewrite app_nil_r.
  - eexists. split; [reflexivity|].
    rewrite driveManual_unfold. cbn [trace]. eexists. reflexivity.
Qed.

(** The frame after a record in MANUAL mode. *)
Lemma status_frame_reports_state_witness :
  let st' := webSocketEvent sample_deserializeJson
               (WStype_TEXT (axis_payload "100" "0")) 10 setup in
  exists before, trace st' = before ++ [StatusFrame 0 255 0 100 MANUAL].
Proof.
  intros st'.
  destruct (status_frame_reports_state sample_deserializeJson setup
              (axis_payload "100" "0")
              {[ "steer"%string := 100; "throttle"%string := 0 ]} 10
              ltac:(vm_compute; discriminate) eq_refl) as (before & Htrace & _).
  exists before. exact Htrace.
Defined.

(** X10: where the product fits an [int], the scaling of both axes is
    odd and monotone: negating a joystick value negates the duty, and a
    larger value never gives a smaller duty. *)
Theorem scaling_is_odd_and_monotone
    (steer throttle steer' throttle' millis : Z) (st : state) :
  Z.abs steer <= 8421504 -> Z.abs throttle <= 8421504 ->
  Z.abs steer' <= 8421504 -> Z.abs throttle' <= 8421504 ->
  let st1 := driveManual steer throttle millis st in
  let st2 := driveManual steer' throttle' millis st in
  let st3 := driveManual (- steer) (- throttle) millis st in
  targetA st3 = - targetA st1 /\ targetB st3 = - targetB st1 /\
  (throttle <= throttle' -> targetA st1 <= targetA st2) /\
  (steer <= steer' -> targetB st1 <= targetB st2).
Proof.
  intros Hs Ht Hs' Ht' st1 st2 st3. subst st1 st2 st3.
  rewrite !driveManual_unfold. cbn [targetA targetB].
  split; [now apply scaling_odd|].
  split; [now apply scaling_odd|].
  split; intros Hle; now apply scaling_monotone.
Qed.

(** Half and full throttle, forward and reverse. *)
Lemma scaling_is_odd_and_monotone_witness :
  targetA (driveManual 0 (-50) 10 setup) = - targetA (driveManual 0 50 10 setup) /\
  targetA (driveManual 0 50 10 setup) <= targetA (driveManual 0 100 10 setup).
Proof.
  destruct (scaling_is_odd_and_monotone 0 50 0 100 10 setup
              ltac:(lia) ltac:(lia) ltac:(lia) ltac:(lia)) as (Hodd & _ & Hmono & _).
  split; [exact Hodd | apply Hmono; lia].
Defined.

(** X11: the sketch never writes a nonzero duty to a PWM channel while
    the standby line is low: along the trace of every reachable state each
    nonzero channel write comes after the line was driven high, and the
    trace ends at the level the line has in the state. *)
Theorem standby_high_before_pwm
    (deserializeJson : string -> string + JsonDocument) (st : state) :
  reachable deserializeJson st ->
  standby_scan LOW (trace st) = Some (motor_stby st).
Proof.
  induction 1 as [|ev st Hreach IH].
  - reflexivity.
  - now apply scan_ok_step.
Qed.

(** A run with a record, a stop and a second record. *)
Lemma standby_high_before_pwm_witness :
  let st := run sample_deserializeJson
              [WebSocket (WStype_TEXT (axis_payload "50" "50")) 10;
               WebSocket (WStype_TEXT "S") 20;
               WebSocket (WStype_TEXT (axis_payload "100" "0")) 30] setup in
  standby_scan LOW (trace st) = Some HIGH.
Proof.
  intros st.
  apply (standby_high_before_pwm sample_deserializeJson st).
  apply (reachable_step _ (WebSocket (WStype_TEXT (axis_payload "100" "0")) 30)).
  apply (reachable_step _ (WebSocket (WStype_TEXT "S") 20)).
  apply (reachable_step _ (WebSocket (WStype_TEXT (axis_payload "50" "50")) 10)).
  apply reachable_setup.
Defined.

End CarExtras2.

(** ** Further properties of the BLE sketch *)

(** *** Searching and cutting strings *)

Section StringFacts.

Lemma append_cons (c : ascii) (s t : string) :
  (String c s ++ t = String c (s ++ t))%string.
Proof. reflexivity. Qed.

Lemma append_nil (t : string) : (EmptyString ++ t = t)%string.
Proof. reflexivity. Qed.

Lemma prefix_append (s rest : string) : String.prefix s (s ++ rest) = true.
Proof.
  induction s as [|c s IH]; rewrite ?append_cons, ?append_nil; cbn [String.prefix];
    [now destruct rest|].
  destruct (ascii_dec c c) as [_|Hne]; [exact IH|now contradiction Hne].
Qed.

Lemma prefix_head_differs (m c : ascii) (t s : string) :
  c <> m -> String.prefix (String m t) (String c s) = false.
Proof.
  intros Hne. cbn [String.prefix].
  destruct (ascii_dec m c) as [Heq|_]; [now contradiction Hne|reflexivity].
Qed.

Lemma lacks_head c c' s :
  lacks c (String c' s) = true -> c' <> c /\ lacks c s = true.
Proof.
  cbn [lacks]. intros H. apply andb_true_iff in H as [H1 H2].
  split; [|exact H2]. apply negb_true_iff in H1. now apply Ascii.eqb_neq.
Qed.

Lemma lacks_append c s t :
  lacks c (s ++ t) = lacks c s && lacks c t.
Proof.
  induction s as [|c' s IH]; rewrite ?append_cons, ?append_nil; cbn [lacks];
    [reflexivity|].
  now rewrite IH, andb_assoc.
Qed.

(** The first occurrence of a token whose first character does not occur
    before it. *)
Lemma index_after (pre : string) (m : ascii) (t rest : string) :
  lacks m pre = true ->
  index 0 (String m t) (pre ++ String m t ++ rest) = Some (String.length pre).
Proof.
  intros Hpre. induction pre as [|c pre IH].
  - rewrite append_nil. cbn [String.length].
    rewrite append_cons. cbn [index]. rewrite <- append_cons.
    now rewrite prefix_append.
  - apply lacks_head in Hpre as [Hne Hpre].
    rewrite append_cons. cbn [String.length index].
    rewrite (prefix_head_differs m c t _ Hne), (IH Hpre). reflexivity.
Qed.

Lemma index_absent (m : ascii) (t s : string) :
  lacks m s = true -> index 0 (String m t) s = None.
Proof.
  induction s as [|c s IH]; intros Hs; [reflexivity|].
  apply lacks_head in Hs as [Hne Hs].
  cbn [index]. now rewrite (prefix_head_differs m c t _ Hne), (IH Hs).
Qed.

Lemma index_from (pre tok s : string) :
  index (String.length pre) tok (pre ++ s) =
  match index 0 tok s with
  | Some n => Some (String.length pre + n)%nat
  | None => None
  end.
Proof.
  induction pre as [|c pre IH]; rewrite ?append_cons, ?append_nil;
    cbn [String.length index].
  - destruct (index 0 tok s); reflexivity.
  - rewrite IH. destruct (index 0 tok s); reflexivity.
Qed.

Lemma substring_all (s : string) : substring 0 (String.length s) s = s.
Proof. induction s as [|c s IH]; cbn [substring String.length]; [reflexivity|now rewrite IH]. Qed.

Lemma substring_head (a rest : string) : substring 0 (String.length a) (a ++ rest) = a.
Proof.
  induction a as [|c a IH]; rewrite ?append_cons, ?append_nil;
    cbn [substring String.length].
  - now destruct rest.
  - now rewrite IH.
Qed.

Lemma substring_skip (pre s : string) (m : nat) :
  substring (String.length pre) m (pre ++ s) = substring 0 m s.
Proof.
  induction pre as [|c pre IH]; rewrite ?append_cons, ?append_nil;
    cbn [substring String.length]; auto.
Qed.

Lemma length_app (s t : string) :
  String.length (s ++ t) = (String.length s + String.length t)%nat.
Proof.
  induction s as [|c s IH]; rewrite ?append_cons, ?append_nil; cbn [String.length];
    [reflexivity|now rewrite IH].
Qed.

(** The rest of a string after a prefix, as [s.substr(pos)] cuts it. *)
Lemma substr_tail (pre s : string) :
  Ble.substr (pre ++ s) (String.length pre) None = s.
Proof.
  unfold Ble.substr. rewrite substring_skip, length_app.
  replace (String.length pre + String.length s - String.length pre)%nat
    with (String.length s) by lia.
  apply substring_all.
Qed.

End StringFacts.

(** *** [stoi] on decimal numerals and on what follows a comma *)

(** Evaluate the character tests on a literal character. *)
Ltac eval_chars :=
  repeat match goal with
  | |- context [Ble.digit_value (Ascii ?a ?b ?c ?d ?e ?f ?g ?h)] =>
      let v := eval vm_compute in (Ble.digit_value (Ascii a b c d e f g h)) in
      change (Ble.digit_value (Ascii a b c d e f g h)) with v
  | |- context [Ble.isspace (Ascii ?a ?b ?c ?d ?e ?f ?g ?h)] =>
      let v := eval vm_compute in (Ble.isspace (Ascii a b c d e f g h)) in
      change (Ble.isspace (Ascii a b c d e f g h)) with v
  end.

Section StoiFacts.
Import Ble.

Lemma append_assoc (s t u : string) : ((s ++ t) ++ u = s ++ (t ++ u))%string.
Proof.
  induction s as [|c s IH]; rewrite ?append_cons, ?append_nil; [reflexivity|].
  now rewrite IH.
Qed.

Lemma read_digits_comma (r rest : string) (acc : option Z) :
  read_digits (r ++ String "," rest) acc = read_digits r acc.
Proof.
  revert acc. induction r as [|c r IH]; intros acc;
    rewrite ?append_cons, ?append_nil; cbn [read_digits].
  - eval_chars. reflexivity.
  - destruct (digit_value c); [apply IH|reflexivity].
Qed.

Lemma skip_spaces_comma (s rest : string) :
  (skip_spaces (s ++ String "," rest) = skip_spaces s ++ String "," rest)%string.
Proof.
  induction s as [|c s IH]; rewrite ?append_cons, ?append_nil; cbn [skip_spaces].
  - eval_chars. reflexivity.
  - destruct (isspace c); [exact IH|reflexivity].
Qed.

(** [stoi] never looks past a comma. *)
Lemma stoi_comma (s rest : string) : stoi (s ++ String "," rest) = stoi s.
Proof.
  unfold stoi. rewrite skip_spaces_comma.
  destruct (skip_spaces s) as [|c r]; rewrite ?append_cons, ?append_nil.
  - reflexivity.
  - destruct (c =? "-")%char; [now rewrite read_digits_comma|].
    destruct (c =? "+")%char; [now rewrite read_digits_comma|].
    rewrite <- append_cons. now rewrite read_digits_comma.
Qed.

Lemma digit_code c d :
  digit_value c = Some d -> (48 <= nat_of_ascii c <= 57)%nat.
Proof.
  unfold digit_value.
  destruct (Z.leb_spec 48 (Z.of_nat (nat_of_ascii c)));
    destruct (Z.leb_spec (Z.of_nat (nat_of_ascii c)) 57);
    cbn [andb]; try discriminate.
  intros _. lia.
Qed.

(** [stoi] on a string that starts with a digit, and on one that starts
    with a minus sign. *)
Lemma stoi_digit_head c rest d :
  digit_value c = Some d ->
  stoi (String c rest) =
  match read_digits (String c rest) None with
  | None => None
  | Some n => if in_int_range n then Some n else None
  end.
Proof.
  intros Hd. pose proof (digit_code c d Hd) as Hcode.
  unfold stoi. cbn [skip_spaces].
  assert (isspace c = false) as ->.
  { unfold isspace.
    destruct (Nat.eqb_spec (nat_of_ascii c) 32); [lia|].
    destruct (Nat.leb_spec 9 (nat_of_ascii c)); [|reflexivity].
    destruct (Nat.leb_spec (nat_of_ascii c) 13); [lia|reflexivity]. }
  destruct (Ascii.eqb_spec c "-") as [->|_]; [discriminate Hd|].
  destruct (Ascii.eqb_spec c "+") as [->|_]; [discriminate Hd|].
  reflexivity.
Qed.

Lemma stoi_minus s :
  stoi (String "-" s) =
  match read_digits s None with
  | None => None
  | Some n => if in_int_range (- n) then Some (- n) else None
  end.
Proof. reflexivity. Qed.

Lemma read_digits_uint_acc (u : Decimal.uint) (acc : positive) :
  read_digits (NilEmpty.string_of_uint u) (Some (Z.pos acc)) =
  Some (Z.pos (Pos.of_uint_acc u acc)).
Proof.
  revert acc. induction u as [|u IH|u IH|u IH|u IH|u IH|u IH|u IH|u IH|u IH|u IH];
    intros acc; cbn [NilEmpty.string_of_uint read_digits Pos.of_uint_acc];
    [reflexivity|..]; eval_chars; cbn [from_option id];
    match goal with
    | |- read_digits _ (Some ?z) = Some (Z.pos (Pos.of_uint_acc _ ?p)) =>
        replace z with (Z.pos p) by lia
    end; apply IH.
Qed.

Lemma read_digits_uint_zero (u : Decimal.uint) :
  read_digits (NilEmpty.string_of_uint u) (Some 0) = Some (Z.of_N (Pos.of_uint u)).
Proof.
  induction u as [|u IH|u IH|u IH|u IH|u IH|u IH|u IH|u IH|u IH|u IH];
    cbn [NilEmpty.string_of_uint read_digits Pos.of_uint Z.of_N];
    [reflexivity|exact IH|..]; eval_chars; cbn [from_option id];
    apply read_digits_uint_acc.
Qed.

Lemma read_digits_uint (u : Decimal.uint) :
  u <> Decimal.Nil ->
  read_digits (NilEmpty.string_of_uint u) None = Some (Z.of_N (Pos.of_uint u)).
Proof.
  intros Hu. rewrite <- read_digits_uint_zero.
  destruct u; [now contradiction Hu|..]; reflexivity.
Qed.

Lemma uint_head (u : Decimal.uint) :
  u <> Decimal.Nil ->
  NilZero.string_of_uint u = NilEmpty.string_of_uint u /\
  exists c rest d,
    NilEmpty.string_of_uint u = String c rest /\ digit_value c = Some d.
Proof.
  intros Hu. destruct u; [now contradiction Hu|..];
    (split; [reflexivity|]); cbn [NilEmpty.string_of_uint];
    eexists _, _, _; (split; [reflexivity|]); vm_compute; reflexivity.
Qed.

Lemma to_uint_nonnil (p : positive) : Pos.to_uint p <> Decimal.Nil.
Proof.
  intros Hnil. pose proof (Unsigned.of_to p) as Hp.
  rewrite Hnil in Hp. discriminate Hp.
Qed.

Lemma stoi_positive (p : positive) :
  stoi (NilZero.string_of_uint (Pos.to_uint p)) =
  if in_int_range (Z.pos p) then Some (Z.pos p) else None.
Proof.
  destruct (uint_head _ (to_uint_nonnil p)) as (-> & c & rest & d & Hstr & Hd).
  pose proof (read_digits_uint _ (to_uint_nonnil p)) as Hread.
  rewrite Unsigned.of_to in Hread. cbn [Z.of_N] in Hread.
  rewrite Hstr in *. rewrite (stoi_digit_head c rest d Hd), Hread. reflexivity.
Qed.

(** [stoi] reads back every integer written in decimal that fits an
    [int], and rejects every one that does not. *)
Lemma stoi_decimal (z : Z) :
  stoi (Z_to_string z) = if in_int_range z then Some z else None.
Proof.
  destruct z as [|p|p]; unfold Z_to_string, Z.to_int, NilZero.string_of_int.
  - reflexivity.
  - apply stoi_positive.
  - rewrite stoi_minus.
    destruct (uint_head _ (to_uint_nonnil p)) as (-> & _).
    rewrite (read_digits_uint _ (to_uint_nonnil p)), Unsigned.of_to.
    reflexivity.
Qed.

Lemma lacks_uint (c : ascii) (u : Decimal.uint) :
  digit_value c = None -> lacks c (NilEmpty.string_of_uint u) = true.
Proof.
  intros Hc.
  induction u as [|u IH|u IH|u IH|u IH|u IH|u IH|u IH|u IH|u IH|u IH];
    cbn [NilEmpty.string_of_uint lacks]; [reflexivity|..]; rewrite IH;
    match goal with |- context [(?k =? c)%char] =>
      destruct (Ascii.eqb_spec k c) as [<-|_]; [discriminate Hc|reflexivity] end.
Qed.

Lemma lacks_decimal (c : ascii) (z : Z) :
  digit_value c = None -> c <> "-"%char -> lacks c (Z_to_string z) = true.
Proof.
  intros Hc Hminus.
  assert (forall u, lacks c (NilZero.string_of_uint u) = true) as Huint.
  { intros u. destruct u; try apply (lacks_uint c _ Hc).
    cbn [NilZero.string_of_uint lacks].
    destruct (Ascii.eqb_spec "0" c) as [<-|_]; [discriminate Hc|reflexivity]. }
  destruct z as [|p|p]; unfold Z_to_string, Z.to_int, NilZero.string_of_int;
    try apply Huint.
  cbn [lacks]. rewrite Huint.
  destruct (Ascii.eqb_spec "-" c) as [<-|_]; [now contradiction Hminus|reflexivity].
Qed.

End StoiFacts.

(** *** The two tokens of a legacy message *)

Section TokenFacts.
Import Ble.

Lemma index_after_head (c : ascii) (pre : string) (m : ascii) (t rest : string) :
  String.prefix (String m t) (String c (pre ++ String m t ++ rest)) = false ->
  lacks m pre = true ->
  index 0 (String m t) (String c (pre ++ String m t ++ rest)) =
  Some (S (String.length pre)).
Proof.
  intros Hhead Hpre. cbn [index]. now rewrite Hhead, index_after.
Qed.

Lemma legacy_m1 (a b : string) :
  lacks "," a = true ->
  find (legacy_message a b) "M1:" 0 = Some 0%nat /\
  m1_str (legacy_message a b) 0 = a.
Proof.
  intros Ha.
  assert (find (legacy_message a b) "," 0 = Some (3 + String.length a)%nat) as Hcomma
    by exact (index_after ("M1:" ++ a) "," "" ("M2:" ++ b) Ha).
  split.
  - exact (index_after "" "M" "1:" (a ++ ",M2:" ++ b) eq_refl).
  - unfold m1_str. rewrite Hcomma. unfold substr.
    replace (3 + String.length a - (0 + 3))%nat with (String.length a) by lia.
    change (substring (String.length "M1:") (String.length a)
              ("M1:" ++ (a ++ ",M2:" ++ b)) = a).
    rewrite substring_skip. apply substring_head.
Qed.

Lemma legacy_m2 (a b : string) :
  lacks "M" a = true ->
  find (legacy_message a b) "M2:" 0 = Some (4 + String.length a)%nat /\
  m2_str (legacy_message a b) (4 + String.length a) = b.
Proof.
  intros Ha.
  assert (String.length ("M1:" ++ a ++ ",") = (4 + String.length a)%nat) as Hlen.
  { change (S (S (S (String.length (a ++ ",")))) = (4 + String.length a)%nat).
    rewrite length_app. cbn [String.length]. lia. }
  assert (legacy_message a b = String "M" (("1:" ++ a ++ ",") ++ "M2:" ++ b)) as Hshape.
  { unfold legacy_message.
    change (",M2:" ++ b)%string with ("," ++ "M2:" ++ b)%string.
    rewrite <- (append_assoc a "," ("M2:" ++ b)). reflexivity. }
  split.
  - unfold find. rewrite Hshape, index_after_head.
    + f_equal. change (S (S (S (String.length (a ++ ","))))
                       = (4 + String.length a)%nat).
      rewrite length_app. cbn [String.length]. lia.
    + reflexivity.
    + change (lacks "M" (a ++ ",") = true). rewrite lacks_append, Ha. reflexivity.
  - unfold m2_str.
    replace (4 + String.length a + 3)%nat
      with (String.length (("M1:" ++ a ++ ",") ++ "M2:"))
      by (rewrite length_app, Hlen; cbn [String.length]; lia).
    replace (legacy_message a b) with ((("M1:" ++ a ++ ",") ++ "M2:") ++ b)%string.
    + apply substr_tail.
    + rewrite Hshape, append_assoc. reflexivity.
Qed.

Lemma swapped_m2 (a b : string) :
  find (swapped_message a b) "M2:" 0 = Some 0%nat /\
  m2_str (swapped_message a b) 0 = (b ++ ",M1:" ++ a)%string.
Proof.
  split.
  - exact (index_after "" "M" "2:" (b ++ ",M1:" ++ a) eq_refl).
  - exact (substr_tail "M2:" (b ++ ",M1:" ++ a)).
Qed.

Lemma swapped_m1 (a b : string) :
  lacks "," a = true -> lacks "M" b = true ->
  find (swapped_message a b) "M1:" 0 = Some (4 + String.length b)%nat /\
  m1_str (swapped_message a b) (4 + String.length b) = a.
Proof.
  intros Ha Hb.
  assert (String.length ("M2:" ++ b ++ ",") = (4 + String.length b)%nat) as Hlen.
  { change (S (S (S (String.length (b ++ ",")))) = (4 + String.length b)%nat).
    rewrite length_app. cbn [String.length]. lia. }
  assert (swapped_message a b = String "M" (("2:" ++ b ++ ",") ++ "M1:" ++ a)) as Hshape.
  { unfold swapped_message.
    change (",M1:" ++ a)%string with ("," ++ "M1:" ++ a)%string.
    rewrite <- (append_assoc b "," ("M1:" ++ a)). reflexivity. }
  assert (swapped_message a b = (("M2:" ++ b ++ ",") ++ "M1:" ++ a)%string) as Hshape'.
  { rewrite Hshape. reflexivity. }
  split.
  - unfold find. rewrite Hshape, index_after_head.
    + f_equal. change (S (S (S (String.length (b ++ ","))))
                       = (4 + String.length b)%nat).
      rewrite length_app. cbn [String.length]. lia.
    + reflexivity.
    + change (lacks "M" (b ++ ",") = true). rewrite lacks_append, Hb. reflexivity.
  - unfold m1_str, find. rewrite Hshape' at 1. rewrite <- Hlen, index_from.
    rewrite (index_absent "," "" ("M1:" ++ a)) by exact Ha.
    replace (String.length ("M2:" ++ b ++ ",") + 3)%nat
      with (String.length (("M2:" ++ b ++ ",") ++ "M1:"))
      by (rewrite length_app; cbn [String.length]; lia).
    replace (swapped_message a b) with ((("M2:" ++ b ++ ",") ++ "M1:") ++ a)%string.
    + apply substr_tail.
    + rewrite Hshape', append_assoc. reflexivity.
Qed.

Lemma legacy_speeds (a b : string) :
  lacks "," a = true -> lacks "M" a = true ->
  m1_speed_of (legacy_message a b) = default 0 (stoi a) /\
  m2_speed_of (legacy_message a b) = default 0 (stoi b).
Proof.
  intros Hc Hm. unfold m1_speed_of, m2_speed_of.
  destruct (legacy_m1 a b Hc) as [-> ->]. destruct (legacy_m2 a b Hm) as [-> ->].
  split; reflexivity.
Qed.

Lemma swapped_speeds (a b : string) :
  lacks "," a = true -> lacks "M" b = true ->
  m1_speed_of (swapped_message a b) = default 0 (stoi a) /\
  m2_speed_of (swapped_message a b) = default 0 (stoi b).
Proof.
  intros Hc Hm. unfold m1_speed_of, m2_speed_of.
  destruct (swapped_m1 a b Hc Hm) as [-> ->]. destruct (swapped_m2 a b) as [-> ->].
  change (",M1:" ++ a)%string with (String "," ("M1:" ++ a)).
  rewrite stoi_comma. split; reflexivity.
Qed.

Lemma legacy_message_nonempty (a b : string) :
  (0 < String.length (legacy_message a b))%nat.
Proof. unfold legacy_message. rewrite !append_cons. cbn [String.length]. lia. Qed.

Lemma swapped_message_nonempty (a b : string) :
  (0 < String.length (swapped_message a b))%nat.
Proof. unfold swapped_message. rewrite !append_cons. cbn [String.length]. lia. Qed.

End TokenFacts.

(** *** The BLE sketch: bounded duties, overwriting writes *)

Section BleMore.
Import Ble.

Lemma ble_bounded_ext st st' :
  ledc st' = ledc st -> ble_bounded st -> ble_bounded st'.
Proof. unfold ble_bounded, ledcRead. intros ->. auto. Qed.

Lemma setMotorSpeed_range in1_pin in2_pin speed st :
  in1_pin <> in2_pin ->
  0 <= ledcRead (setMotorSpeed in1_pin in2_pin speed st) in1_pin <= 255 /\
  0 <= ledcRead (setMotorSpeed in1_pin in2_pin speed st) in2_pin <= 255.
Proof.
  intros Hne.
  apply (policy_range (constrain speed (-255) 255)).
  - apply constrain_bounds. lia.
  - now apply setMotorSpeed_policy.
Qed.

Lemma ble_bounded_M1 speed st :
  ble_bounded st -> ble_bounded (setMotorSpeed M1_IN1_PIN M1_IN2_PIN speed st).
Proof.
  intros (_ & _ & KB1 & KB2). destruct pins_distinct as (K12 & ? & ? & ? & ? & ?).
  destruct (setMotorSpeed_range _ _ speed st K12) as [KA1 KA2].
  unfold ble_bounded. rewrite !(setMotorSpeed_frame _ _ _ _ M2_IN1_PIN) by congruence.
  rewrite !(setMotorSpeed_frame _ _ _ _ M2_IN2_PIN) by congruence. auto.
Qed.

Lemma ble_bounded_M2 speed st :
  ble_bounded st -> ble_bounded (setMotorSpeed M2_IN1_PIN M2_IN2_PIN speed st).
Proof.
  intros (KA1 & KA2 & _ & _). destruct pins_distinct as (? & ? & ? & ? & ? & K34).
  destruct (setMotorSpeed_range _ _ speed st K34) as [KB1 KB2].
  unfold ble_bounded. rewrite !(setMotorSpeed_frame _ _ _ _ M1_IN1_PIN) by congruence.
  rewrite !(setMotorSpeed_frame _ _ _ _ M1_IN2_PIN) by congruence. auto.
Qed.

Lemma ble_bounded_onWrite rxValue st :
  ble_bounded st -> ble_bounded (onWrite rxValue st).
Proof.
  intros Hst. destruct (Nat.ltb_spec 0 (String.length rxValue)) as [Hlen|Hlen].
  - destruct (onWrite_unfold rxValue st Hlen) as [Hledc _].
    apply ble_bounded_ext with
      (st := setMotorSpeed M2_IN1_PIN M2_IN2_PIN (m2_speed_of rxValue)
               (setMotorSpeed M1_IN1_PIN M1_IN2_PIN (m1_speed_of rxValue) st)).
    + rewrite Hledc, !setMotorSpeed_unfold. reflexivity.
    + now apply ble_bounded_M2, ble_bounded_M1.
  - unfold onWrite. apply Nat.ltb_ge in Hlen. now rewrite Hlen.
Qed.

Lemma ble_bounded_idle c tr : ble_bounded (mkState ∅ c tr).
Proof.
  unfold ble_bounded, ledcRead. cbn [ledc]. rewrite !lookup_empty.
  cbn [from_option id]. lia.
Qed.

Lemma reachable_ble_bounded st : reachable st -> ble_bounded st.
Proof.
  induction 1 as [|ev st Hreach IH].
  - unfold setup, seq.
    match goal with |- ble_bounded (Serial_println _ (emit _ ?s)) =>
      apply ble_bounded_ext with (st := s); [reflexivity|] end.
    apply ble_bounded_M2, ble_bounded_M1.
    match goal with |- ble_bounded ?s =>
      apply ble_bounded_ext with (st := mkState ∅ false []); [reflexivity|] end.
    apply ble_bounded_idle.
  - destruct ev as [rxValue| | |]; unfold step.
    + now apply ble_bounded_onWrite.
    + unfold onConnect, seq. apply ble_bounded_M2, ble_bounded_M1.
      revert IH. apply ble_bounded_ext. reflexivity.
    + unfold onDisconnect, seq.
      match goal with |- ble_bounded (emit _ ?s) =>
        apply ble_bounded_ext with (st := s); [reflexivity|] end.
      apply ble_bounded_M1. revert IH. apply ble_bounded_ext. reflexivity.
    + exact IH.
Qed.

Lemma ledc_setMotorSpeed in1_pin in2_pin speed st :
  ledc (setMotorSpeed in1_pin in2_pin speed st) =
  <[in2_pin := rev_duty (constrain speed (-255) 255)]>
    (<[in1_pin := fwd_duty (constrain speed (-255) 255)]> (ledc st)).
Proof. now rewrite setMotorSpeed_unfold. Qed.

(** The pins after a write, from the two speeds it hands on. *)
Lemma pins_onWrite rxValue st :
  (0 < String.length rxValue)%nat ->
  ble_pins (onWrite rxValue st) =
  (fwd_duty (constrain (m1_speed_of rxValue) (-255) 255),
   rev_duty (constrain (m1_speed_of rxValue) (-255) 255),
   fwd_duty (constrain (m2_speed_of rxValue) (-255) 255),
   rev_duty (constrain (m2_speed_of rxValue) (-255) 255)).
Proof.
  intros Hlen. destruct (onWrite_reads rxValue st Hlen) as (H1 & H2 & H3 & H4).
  unfold ble_pins. now rewrite H1, H2, H3, H4.
Qed.

End BleMore.

Section BleExtras.
Import Ble.

(** X12: whatever was written, connected or disconnected, every pin of
    the BLE sketch carries a duty within [0, 255]. *)
Theorem ble_duties_bounded (st : state) :
  reachable st ->
  0 <= ledcRead st M1_IN1_PIN <= 255 /\ 0 <= ledcRead st M1_IN2_PIN <= 255 /\
  0 <= ledcRead st M2_IN1_PIN <= 255 /\ 0 <= ledcRead st M2_IN2_PIN <= 255.
Proof. exact (reachable_ble_bounded st). Qed.

(** The bounds after a write far above the range. *)
Lemma ble_duties_bounded_witness :
  let st := step (Write "M1:99999,M2:-99999") setup in
  reachable st /\ ble_pins st = (255, 0, 0, 255) /\
  0 <= ledcRead st M1_IN1_PIN <= 255.
Proof.
  intros st.
  assert (reachable st) as Hreach by apply reachable_step, reachable_setup.
  split; [exact Hreach|].
  split; [vm_compute; reflexivity|].
  exact (proj1 (ble_duties_bounded st Hreach)).
Defined.

(** X13: [setMotorSpeed] overwrites: the pins after two calls on the
    same pair are those after the second call alone; and the calls for the
    two motors commute, each leaving the pins of the other motor alone. *)
Theorem setMotorSpeed_overwrites (st : state) :
  (forall in1_pin in2_pin speed1 speed2,
     in1_pin <> in2_pin ->
     ledc (setMotorSpeed in1_pin in2_pin speed2
             (setMotorSpeed in1_pin in2_pin speed1 st)) =
     ledc (setMotorSpeed in1_pin in2_pin speed2 st)) /\
  (forall speedA speedB,
     ledc (setMotorSpeed M2_IN1_PIN M2_IN2_PIN speedB
             (setMotorSpeed M1_IN1_PIN M1_IN2_PIN speedA st)) =
     ledc (setMotorSpeed M1_IN1_PIN M1_IN2_PIN speedA
             (setMotorSpeed M2_IN1_PIN M2_IN2_PIN speedB st))) /\
  (forall speedA,
     ledcRead (setMotorSpeed M1_IN1_PIN M1_IN2_PIN speedA st) M2_IN1_PIN =
       ledcRead st M2_IN1_PIN /\
     ledcRead (setMotorSpeed M1_IN1_PIN M1_IN2_PIN speedA st) M2_IN2_PIN =
       ledcRead st M2_IN2_PIN).
Proof.
  destruct pins_distinct as (? & ? & ? & ? & ? & ?).
  split; [|split].
  - intros in1_pin in2_pin speed1 speed2 Hne. rewrite !ledc_setMotorSpeed.
    apply map_eq. intros k.
    destruct (decide (k = in2_pin)) as [->|?];
      [now rewrite !lookup_insert_eq|].
    destruct (decide (k = in1_pin)) as [->|?];
      repeat first [rewrite lookup_insert_eq | rewrite lookup_insert_ne by congruence];
      reflexivity.
  - intros speedA speedB. rewrite !ledc_setMotorSpeed.
    apply map_eq. intros k.
    destruct (decide (k = M1_IN1_PIN)) as [->|?];
      [repeat first [rewrite lookup_insert_eq | rewrite lookup_insert_ne by congruence];
       reflexivity|].
    destruct (decide (k = M1_IN2_PIN)) as [->|?];
      [repeat first [rewrite lookup_insert_eq | rewrite lookup_insert_ne by congruence];
       reflexivity|].
    destruct (decide (k = M2_IN1_PIN)) as [->|?];
      [repeat first [rewrite lookup_insert_eq | rewrite lookup_insert_ne by congruence];
       reflexivity|].
    destruct (decide (k = M2_IN2_PIN)) as [->|?];
      [repeat first [rewrite lookup_insert_eq | rewrite lookup_insert_ne by congruence];
       reflexivity|].
    now rewrite !lookup_insert_ne by congruence.
  - intros speedA. split; apply setMotorSpeed_frame; congruence.
Qed.

(** The pins after the two calls [onWrite] ends with. *)
Lemma pins_both_motors speedA speedB st :
  ble_pins (setMotorSpeed M2_IN1_PIN M2_IN2_PIN speedB
              (setMotorSpeed M1_IN1_PIN M1_IN2_PIN speedA st)) =
  (fwd_duty (constrain speedA (-255) 255), rev_duty (constrain speedA (-255) 255),
   fwd_duty (constrain speedB (-255) 255), rev_duty (constrain speedB (-255) 255)).
Proof.
  destruct pins_distinct as (? & ? & ? & ? & ? & ?).
  unfold ble_pins, ledcRead. rewrite !ledc_setMotorSpeed.
  repeat first [rewrite lookup_insert_eq | rewrite lookup_insert_ne by congruence].
  reflexivity.
Qed.

Lemma duty_split_saturated d :
  255 <= d -> fwd_duty (constrain d (-255) 255) = 255 /\
              rev_duty (constrain d (-255) 255) = 0.
Proof.
  intros Hd. unfold constrain.
  destruct (Z.ltb_spec d (-255)); [lia|].
  destruct (Z.ltb_spec 255 d); [split; reflexivity|].
  assert (d = 255) as -> by lia. split; reflexivity.
Qed.

(** X14: in a message [M1:<a>,M2:<b>] where the text [a] holds no comma
    and no [M], the field of motor A is exactly [a] and the field of motor B
    is exactly [b], whatever [b] is: the pins end as after
    [setMotorSpeed] with [stoi a] and [stoi b], 0 standing for a field
    [stoi] rejects. *)
Theorem legacy_message_fields (a b : string) (st : state) :
  lacks "," a = true -> lacks "M" a = true ->
  m1_str (legacy_message a b) 0 = a /\
  m2_str (legacy_message a b) (4 + String.length a) = b /\
  ble_pins (onWrite (legacy_message a b) st) =
  ble_pins (setMotorSpeed M2_IN1_PIN M2_IN2_PIN (default 0 (stoi b))
              (setMotorSpeed M1_IN1_PIN M1_IN2_PIN (default 0 (stoi a)) st)).
Proof.
  intros Hc Hm.
  split; [exact (proj2 (legacy_m1 a b Hc))|].
  split; [exact (proj2 (legacy_m2 a b Hm))|].
  rewrite (pins_onWrite _ st (legacy_message_nonempty a b)), pins_both_motors.
  destruct (legacy_speeds a b Hc Hm) as [-> ->]. reflexivity.
Qed.

(** A rejected field for motor A and a padded number for motor B. *)
Lemma legacy_message_fields_witness :
  ble_pins (onWrite (legacy_message "fast" " +70 rpm") setup) = (0, 0, 70, 0).
Proof.
  destruct (legacy_message_fields "fast" " +70 rpm" setup eq_refl eq_refl)
    as (_ & _ & ->).
  vm_compute. reflexivity.
Defined.

(** X15: for all integers [a] and [b] that fit an [int], the message
    [M1:<a>,M2:<b>] with both written in decimal drives motor A at [a] and
    motor B at [b], each clamped to [-255, 255]. *)
Theorem decimal_message_drives (a b : Z) (st : state) :
  in_int_range a = true -> in_int_range b = true ->
  let st' := onWrite (legacy_message (Z_to_string a) (Z_to_string b)) st in
  ble_pins st' =
    ble_pins (setMotorSpeed M2_IN1_PIN M2_IN2_PIN b
                (setMotorSpeed M1_IN1_PIN M1_IN2_PIN a st)) /\
  channel_policy (clamp a (-255) 255)
    (ledcRead st' M1_IN1_PIN) (ledcRead st' M1_IN2_PIN) /\
  channel_policy (clamp b (-255) 255)
    (ledcRead st' M2_IN1_PIN) (ledcRead st' M2_IN2_PIN).
Proof.
  intros Ha Hb st'.
  assert (ble_pins st' =
          ble_pins (setMotorSpeed M2_IN1_PIN M2_IN2_PIN b
                      (setMotorSpeed M1_IN1_PIN M1_IN2_PIN a st))) as Hpins.
  { subst st'.
    destruct (legacy_message_fields (Z_to_string a) (Z_to_string b) st)
      as (_ & _ & ->);
      [apply lacks_decimal; [reflexivity|discriminate]
      |apply lacks_decimal; [reflexivity|discriminate]|].
    rewrite !stoi_decimal, Ha, Hb. reflexivity. }
  split; [exact Hpins|].
  rewrite pins_both_motors in Hpins. unfold ble_pins in Hpins.
  injection Hpins as -> -> -> ->.
  rewrite <- !constrain_clamp by lia.
  split; apply policy_of_duties, constrain_bounds; lia.
Qed.

(** The message for 150 and -100. *)
Lemma decimal_message_drives_witness :
  legacy_message (Z_to_string 150) (Z_to_string (-100)) = "M1:150,M2:-100"%string /\
  ble_pins (onWrite "M1:150,M2:-100" setup) = (150, 0, 0, 100).
Proof.
  split; [reflexivity|].
  destruct (decimal_message_drives 150 (-100) setup eq_refl eq_refl) as (Hpins & _).
  change (legacy_message (Z_to_string 150) (Z_to_string (-100)))
    with "M1:150,M2:-100"%string in Hpins.
  rewrite Hpins. vm_compute. reflexivity.
Defined.

(** X16: a speed of 255 or more saturates the forward pin at 255 as long
    as it fits an [int]; a decimal number beyond the [int] range makes
    [stoi] throw, and the motor is stopped instead. *)
Theorem huge_speed_stops_motor (a b : Z) (st : state) :
  let st' := onWrite (legacy_message (Z_to_string a) (Z_to_string b)) st in
  (255 <= a <= INT_MAX ->
   ledcRead st' M1_IN1_PIN = 255 /\ ledcRead st' M1_IN2_PIN = 0) /\
  (INT_MAX < a ->
   ledcRead st' M1_IN1_PIN = 0 /\ ledcRead st' M1_IN2_PIN = 0).
Proof.
  intros st'.
  assert (ble_pins st' =
          ble_pins (setMotorSpeed M2_IN1_PIN M2_IN2_PIN
                      (default 0 (stoi (Z_to_string b)))
                      (setMotorSpeed M1_IN1_PIN M1_IN2_PIN
                         (default 0 (stoi (Z_to_string a))) st))) as Hpins.
  { subst st'.
    destruct (legacy_message_fields (Z_to_string a) (Z_to_string b) st)
      as (_ & _ & ->);
      [apply lacks_decimal; [reflexivity|discriminate]
      |apply lacks_decimal; [reflexivity|discriminate]|].
    reflexivity. }
  rewrite pins_both_motors, stoi_decimal in Hpins. unfold ble_pins in Hpins.
  injection Hpins as -> -> _ _.
  unfold in_int_range, INT_MIN, INT_MAX in *. split; intros Hrange.
  - destruct (Z.leb_spec (-2147483648) a); [|lia].
    destruct (Z.leb_spec a 2147483647); [|lia].
    cbn [andb from_option id]. apply duty_split_saturated. lia.
  - destruct (Z.leb_spec (-2147483648) a); [|lia].
    destruct (Z.leb_spec a 2147483647); [lia|].
    cbn [andb from_option id]. split; reflexivity.
Qed.

(** One more than [INT_MAX] stops motor A; [INT_MAX] saturates it. *)
Lemma huge_speed_stops_motor_witness :
  ledcRead (onWrite "M1:2147483647,M2:0" setup) M1_IN1_PIN = 255 /\
  ledcRead (onWrite "M1:2147483648,M2:0" setup) M1_IN1_PIN = 0.
Proof.
  destruct (huge_speed_stops_motor 2147483647 0 setup) as [Hsat _].
  destruct (huge_speed_stops_motor 2147483648 0 setup) as [_ Hstop].
  split.
  - exact (proj1 (Hsat ltac:(unfold INT_MAX; lia))).
  - exact (proj1 (Hstop ltac:(unfold INT_MAX; lia))).
Defined.

(** X17: the order of the two tokens does not matter: when [a] holds no
    comma and neither [a] nor [b] holds an [M], the message
    [M2:<b>,M1:<a>] leaves the pins as [M1:<a>,M2:<b>] does. *)
Theorem token_order_is_irrelevant (a b : string) (st : state) :
  lacks "," a = true -> lacks "M" a = true -> lacks "M" b = true ->
  ble_pins (onWrite (swapped_message a b) st) =
  ble_pins (onWrite (legacy_message a b) st).
Proof.
  intros Hc Hma Hmb.
  rewrite (pins_onWrite _ st (legacy_message_nonempty a b)).
  rewrite (pins_onWrite _ st (swapped_message_nonempty a b)).
  destruct (legacy_speeds a b Hc Hma) as [-> ->].
  destruct (swapped_speeds a b Hc Hmb) as [-> ->].
  reflexivity.
Qed.

(** The two orders of 150 and -100. *)
Lemma token_order_is_irrelevant_witness :
  ble_pins (onWrite "M2:-100,M1:150" setup) = ble_pins (onWrite "M1:150,M2:-100" setup).
Proof.
  exact (token_order_is_irrelevant "150" "-100" setup eq_refl eq_refl eq_refl).
Defined.

(** X19: the first [M1:] token wins and its field ends at the first
    comma: for a message that starts with [M1:<a>,] where [a] holds no comma,
    motor A is driven from [stoi a] whatever follows the comma, a second
    [M1:] token included. *)
Theorem first_token_wins (a rest : string) (st : state) :
  lacks "," a = true ->
  let st' := onWrite ("M1:" ++ a ++ "," ++ rest) st in
  m1_str ("M1:" ++ a ++ "," ++ rest) 0 = a /\
  channel_policy (clamp (default 0 (stoi a)) (-255) 255)
    (ledcRead st' M1_IN1_PIN) (ledcRead st' M1_IN2_PIN).
Proof.
  intros Ha st'.
  assert (find ("M1:" ++ a ++ "," ++ rest) "M1:" 0 = Some 0%nat) as Hfind
    by exact (index_after "" "M" "1:" (a ++ "," ++ rest) eq_refl).
  assert (find ("M1:" ++ a ++ "," ++ rest) "," 0 = Some (3 + String.length a)%nat)
    as Hcomma by exact (index_after ("M1:" ++ a) "," "" rest Ha).
  assert (m1_str ("M1:" ++ a ++ "," ++ rest) 0 = a) as Hstr.
  { unfold m1_str. rewrite Hcomma. unfold substr.
    replace (3 + String.length a - (0 + 3))%nat with (String.length a) by lia.
    change (substring (String.length "M1:") (String.length a)
              ("M1:" ++ (a ++ "," ++ rest)) = a).
    rewrite substring_skip. apply substring_head. }
  split; [exact Hstr|].
  assert (0 < String.length ("M1:" ++ a ++ "," ++ rest))%nat as Hlen
    by (rewrite !append_cons; cbn [String.length]; lia).
  destruct (onWrite_reads _ st Hlen) as (H1 & H2 & _). fold st' in H1, H2.
  rewrite H1, H2. unfold m1_speed_of. rewrite Hfind, Hstr.
  rewrite <- constrain_clamp by lia.
  apply policy_of_duties, constrain_bounds. lia.
Qed.

(** Two [M1:] tokens: the first one drives motor A. *)
Lemma first_token_wins_witness :
  ledcRead (onWrite "M1:50,M1:90" setup) M1_IN1_PIN = 50.
Proof.
  destruct (first_token_wins "50" "M1:90" setup eq_refl) as (_ & Hpos & _).
  exact (proj1 (Hpos ltac:(vm_compute; reflexivity))).
Defined.

End BleExtras.

(** ** The web client *)

Section WebExtras.
Import Web.

(** X18: with a joystick off centre the panel is shown with the larger
    of the two magnitudes as its number, steering winning a tie, and with the
    label and colour of that axis and direction; the branches that would
    show the throttle under a zero steering value or the idle label are never
    taken. With both values zero the panel is hidden and keeps its text. *)
Theorem dominant_display (steer throttle : Z) (p : panel) :
  let p' := updateDominantDisplay steer throttle p in
  (steer = 0 -> throttle = 0 ->
   shown p' = false /\ domName p' = domName p /\ domValue p' = domValue p /\
   valueClass p' = no_class) /\
  (steer <> 0 \/ throttle <> 0 ->
   shown p' = true /\
   domValue p' = Some (Z.max (Z.abs steer) (Z.abs throttle)) /\
   (domName p', valueClass p') =
     (if Z.abs throttle <=? Z.abs steer
      then if 0 <? steer then (name_right_steer, c_right) else (name_left_steer, c_left)
      else if 0 <? throttle then (name_forward, c_fwd) else (name_reverse, c_rev)) /\
   domName p' <> name_idle /\ domName p' <> name_empty).
Proof.
  intros p'. subst p'. unfold updateDominantDisplay. split.
  - intros -> ->. cbn. auto.
  - intros Hoff.
    destruct (Z.eqb_spec (Z.abs steer) 0) as [Hs|Hs];
      destruct (Z.eqb_spec (Z.abs throttle) 0) as [Ht|Ht]; cbn [andb];
      try (exfalso; lia);
      destruct (Z.leb_spec (Z.abs throttle) (Z.abs steer));
      destruct (Z.ltb_spec (Z.abs steer) (Z.abs throttle)); try lia;
      destruct (Z.ltb_spec 0 steer); destruct (Z.ltb_spec steer 0); try lia;
      destruct (Z.ltb_spec 0 throttle); try lia;
      try destruct (Z.ltb_spec 0 (Z.abs throttle)); try lia;
      cbn [shown domName domValue valueClass];
      repeat split; try discriminate; f_equal; lia.
Qed.

(** Steering at -40 against throttle at 40, and throttle alone. *)
Lemma dominant_display_witness :
  let p := mkPanel false name_empty None no_class in
  updateDominantDisplay (-40) 40 p = mkPanel true name_left_steer (Some 40) c_left /\
  domValue (updateDominantDisplay 0 (-70) p) = Some 70.
Proof.
  intros p. split; [reflexivity|].
  destruct (dominant_display 0 (-70) p) as [_ Hoff].
  destruct (Hoff ltac:(right; discriminate)) as (_ & Hvalue & _).
  exact Hvalue.
Defined.

End WebExtras.
